(** * flexsql: operator model, rewrite pass and precedence-directed rendering

    A shallow embedding of [operator.go] and [grammar.go].  Go pointers to
    freshly built trees are modelled as plain (unshared) tree values; the
    in-place [Transform] methods become functions returning the new tree. *)

From Stdlib Require Import String List Bool NArith ZArith Lia.
From Stdlib Require Import Ascii DecimalN.
Import ListNotations.
Open Scope string_scope.
Set Warnings "-register-all".

(** ** Enumerations (Go typed constants; the zero value is "unset") *)

Inductive OperatorType :=
| OpUnset
| OpMul | OpDiv | OpMod | OpAdd | OpSub
| OpIsNull | OpIsNotNull | OpIsTrue | OpIsNotTrue | OpIsFalse | OpIsNotFalse
| OpIn | OpNotIn | OpBetween | OpNotBetween
| OpLike | OpNotLike | OpILike | OpNotILike
| OpLt | OpLte | OpGt | OpGte | OpEq | OpNotEq
| OpNot | OpAnd | OpOr.

Inductive Associativity :=
| AssocUnset
| NonAssociative
| LeftAssociative
| RightAssociative.

Definition assoc_eqb (a b : Associativity) : bool :=
  match a, b with
  | AssocUnset, AssocUnset | NonAssociative, NonAssociative
  | LeftAssociative, LeftAssociative | RightAssociative, RightAssociative => true
  | _, _ => false
  end.

(** [t != 0] on an [OperatorType]. *)
Definition opTypeSet (t : OperatorType) : bool :=
  match t with OpUnset => false | _ => true end.

(** [t == OpNot]. *)
Definition isOpNot (t : OperatorType) : bool :=
  match t with OpNot => true | _ => false end.

(** [s != ""]. *)
Definition nonEmpty (s : string) : bool := negb (String.eqb s "").

(** ** Operator node fields (all fields but the children) *)

Record UnaryOperator := {
  u_Type : OperatorType;
  u_Symbol : string;
  u_NegatedType : OperatorType;
  u_NegatedSymbol : string;
  u_CustomPrecedence : N;
  u_CustomAssociativity : Associativity
}.

Record BinaryOperator := {
  b_Type : OperatorType;
  b_Symbol : string;
  b_NegatedType : OperatorType;
  b_NegatedSymbol : string;
  b_CustomPrecedence : N;
  b_CustomAssociativity : Associativity;
  b_SuppressSpace : bool
}.

Record TernaryOperator := {
  t_Type : OperatorType;
  t_Symbol1 : string;
  t_Symbol2 : string;
  t_NegatedType : OperatorType;
  t_NegatedSymbol1 : string;
  t_NegatedSymbol2 : string;
  t_CustomPrecedence : N;
  t_CustomAssociativity : Associativity
}.

(** ** Expressions: every implementation of [Expr] (= [Node]) in the sources *)

Inductive Expr :=
| EUnary (u : UnaryOperator) (x : Expr)
| EBinary (b : BinaryOperator) (left right : Expr)
| ETernary (t : TernaryOperator) (x1 x2 x3 : Expr)
| ESQLType (s : string)
| EColumn (tableLabel name : string)
| EPlaceholder (name : string)
| ECast (x : Expr) (sqlType : string)
| EFunc (name : string) (args : list Expr) (omitParentheses : bool)
| ETuple (exprs : list Expr)
| ECase (conds results : list Expr) (else_ : option Expr).

(** The type switch [e.(operator)]. *)
Definition is_operator (e : Expr) : bool :=
  match e with EUnary _ _ | EBinary _ _ _ | ETernary _ _ _ _ => true | _ => false end.

(** The methods of the [operator] interface (meaningful on operators only). *)
Definition precedence (e : Expr) : N :=
  match e with
  | EUnary u _ => u_CustomPrecedence u
  | EBinary b _ _ => b_CustomPrecedence b
  | ETernary t _ _ _ => t_CustomPrecedence t
  | _ => 0%N
  end.

Definition associativity (e : Expr) : Associativity :=
  match e with
  | EUnary u _ => u_CustomAssociativity u
  | EBinary b _ _ => b_CustomAssociativity b
  | ETernary t _ _ _ => t_CustomAssociativity t
  | _ => AssocUnset
  end.

Definition operatorType (e : Expr) : OperatorType :=
  match e with
  | EUnary u _ => u_Type u
  | EBinary b _ _ => b_Type b
  | ETernary t _ _ _ => t_Type t
  | _ => OpUnset
  end.

Definition isNot (u : UnaryOperator) : bool := isOpNot (u_Type u).

Definition negatable (e : Expr) : bool :=
  match e with
  | EUnary u _ => isNot u || (opTypeSet (u_NegatedType u) && nonEmpty (u_NegatedSymbol u))
  | EBinary b _ _ => opTypeSet (b_NegatedType b) && nonEmpty (b_NegatedSymbol b)
  | ETernary t _ _ _ =>
      opTypeSet (t_NegatedType t) && nonEmpty (t_NegatedSymbol1 t) && nonEmpty (t_NegatedSymbol2 t)
  | _ => false
  end.

(** The struct literals built by the three [negate] methods. *)
Definition negateUnary (u : UnaryOperator) : UnaryOperator := {|
  u_Type := u_NegatedType u;
  u_Symbol := u_NegatedSymbol u;
  u_NegatedType := u_Type u;
  u_NegatedSymbol := u_Symbol u;
  u_CustomPrecedence := u_CustomPrecedence u;
  u_CustomAssociativity := u_CustomAssociativity u |}.

(** [SuppressSpace] is not listed in the Go literal, so it takes its zero value. *)
Definition negateBinary (b : BinaryOperator) : BinaryOperator := {|
  b_Type := b_NegatedType b;
  b_Symbol := b_NegatedSymbol b;
  b_NegatedType := b_Type b;
  b_NegatedSymbol := b_Symbol b;
  b_CustomPrecedence := b_CustomPrecedence b;
  b_CustomAssociativity := b_CustomAssociativity b;
  b_SuppressSpace := false |}.

Definition negateTernary (t : TernaryOperator) : TernaryOperator := {|
  t_Type := t_NegatedType t;
  t_Symbol1 := t_NegatedSymbol1 t;
  t_Symbol2 := t_NegatedSymbol2 t;
  t_NegatedType := t_Type t;
  t_NegatedSymbol1 := t_Symbol1 t;
  t_NegatedSymbol2 := t_Symbol2 t;
  t_CustomPrecedence := t_CustomPrecedence t;
  t_CustomAssociativity := t_CustomAssociativity t |}.

Definition negate (e : Expr) : Expr :=
  match e with
  | EUnary u x => if isNot u then x else EUnary (negateUnary u) x
  | EBinary b l r => EBinary (negateBinary b) l r
  | ETernary t x1 x2 x3 => ETernary (negateTernary t) x1 x2 x3
  | _ => e
  end.

(** ** The rewrite pass ([Transform])

    [UnaryOperator.Transform] on a NOT whose child [v] is a negatable operator
    returns [v.negate().Transform(c)].  The call is not structural, so the
    inner fixpoint [notCase u x] computes [Transform] of [NOT x] by unfolding
    [negate x] one constructor at a time; [transform_not_negatable] below
    restates the source's equation.  The [*Compiler] argument is unused by
    every [Transform] and is omitted. *)
Fixpoint transform (e : Expr) : Expr :=
  match e with
  | EUnary u x =>
      if isNot u then
        (fix notCase (u : UnaryOperator) (x : Expr) {struct x} : Expr :=
           if is_operator x && negatable x then
             match x with
             | EUnary w y =>
                 if isNot w then transform y
                 else if isNot (negateUnary w) then notCase (negateUnary w) y
                 else EUnary (negateUnary w) (transform y)
             | EBinary b l r => EBinary (negateBinary b) (transform l) (transform r)
             | ETernary t x1 x2 x3 =>
                 ETernary (negateTernary t) (transform x1) (transform x2) (transform x3)
             | _ => EUnary u (transform x)
             end
           else EUnary u (transform x)) u x
      else EUnary u (transform x)
  | EBinary b l r => EBinary b (transform l) (transform r)
  | ETernary t x1 x2 x3 => ETernary t (transform x1) (transform x2) (transform x3)
  | ESQLType s => ESQLType s
  | EColumn l n => EColumn l n
  | EPlaceholder p => EPlaceholder p
  | ECast x ty => ECast (transform x) ty
  | EFunc n args o => EFunc n (map transform args) o
  | ETuple xs => ETuple (map transform xs)
  | ECase cs rs el => ECase (map transform cs) (map transform rs) (option_map transform el)
  end.

(** ** Errors of [grammar.go]; [ErrIndexOutOfRange] stands for a Go runtime
    panic on a slice index out of range (not a value of the typed-error channel). *)
Inductive Error :=
| ErrNoPrecedence | ErrNoAssociativity | ErrUnknownFromClauseItem
| ErrNonAssociative | ErrZeroLength | ErrUnknownInputKey | ErrUnboundPlaceholder
| ErrIndexOutOfRange.

(** ** The output context ([*Compiler])

    The [Compiler] type is not part of the sources.  Its dialect-dependent
    parts are parameters: the precedence and associativity tables, the
    identifier quoting and the placeholder rendering function. *)
Record Dialect := {
  precedenceTable : OperatorType -> N;
  associativityTable : OperatorType -> Associativity;
  quoteIdentifier : string -> string;
  makePlaceholder : string -> N -> string
}.

(** The mutable part of one print pass: the text buffer and the
    insertion-ordered list of bound placeholder names. *)
Record State := { buf : string; bindings : list string }.

Definition emptyState : State := {| buf := ""; bindings := [] |}.

(** Rendering computations: state passing with an error exit. *)
Definition M (A : Type) : Type := State -> (Error + (A * State)).

Definition ret {A} (a : A) : M A := fun s => inr (a, s).
Definition fail {A} (e : Error) : M A := fun _ => inl e.
Definition bind {A B} (m : M A) (k : A -> M B) : M B :=
  fun s => match m s with inl e => inl e | inr (a, s') => k a s' end.

Notation "x <- m ;; k" := (bind m (fun x => k)) (at level 61, m at next level, right associativity).
Notation "m ;; k" := (bind m (fun _ => k)) (at level 61, right associativity).

(** Modelled from the spec: [Compiler.WriteVerbatim] (appendLiteral). *)
Definition WriteVerbatim (t : string) : M unit :=
  fun s => inr (tt, {| buf := buf s ++ t; bindings := bindings s |}).

(** Modelled from the spec: [Compiler.WriteIdentifier] (dialect-quoted). *)
Definition WriteIdentifier (c : Dialect) (n : string) : M unit :=
  WriteVerbatim (quoteIdentifier c n).

Fixpoint indexOf (x : string) (l : list string) : option nat :=
  match l with
  | [] => None
  | y :: l' => if String.eqb x y then Some 0 else option_map S (indexOf x l')
  end.

(** Modelled from the spec: [Compiler.insertPlaceholder].  A name already
    bound in this pass keeps its position; otherwise the next sequential
    1-based position is assigned and recorded. *)
Definition insertPlaceholder (name : string) : M N :=
  fun s =>
    match indexOf name (bindings s) with
    | Some i => inr (N.of_nat (S i), s)
    | None =>
        inr (N.of_nat (S (length (bindings s))),
             {| buf := buf s; bindings := (bindings s ++ [name])%list |})
    end.

(** ** Precedence and associativity resolution *)

Definition resolveOperatorPrecedence (c : Dialect) (op : Expr) : M N :=
  let customPrecedence := precedence op in
  if negb (N.eqb customPrecedence 0) then ret customPrecedence else
  let prec := precedenceTable c (operatorType op) in
  if negb (N.eqb prec 0) then ret prec else
  fail ErrNoPrecedence.

Definition resolveOperatorAssociativity (c : Dialect) (op : Expr) : M Associativity :=
  let customAssociativity := associativity op in
  if negb (assoc_eqb customAssociativity AssocUnset) then ret customAssociativity else
  let a := associativityTable c (operatorType op) in
  if negb (assoc_eqb a AssocUnset) then ret a else
  fail ErrNoAssociativity.

(** [stringifyParen]: the node's own rendering is passed as a computation. *)
Definition stringifyParen (m : M unit) : M unit :=
  WriteVerbatim "(" ;; m ;; WriteVerbatim ")".

(** The closure [write] of [UnaryOperator.Stringify]. *)
Definition unaryWrite (assoc : Associativity) (sym : string) (m : M unit) (needParen : bool) : M unit :=
  (if assoc_eqb assoc RightAssociative then WriteVerbatim (sym ++ " ") else ret tt) ;;
  (if needParen then stringifyParen m else m) ;;
  (if assoc_eqb assoc LeftAssociative then WriteVerbatim (" " ++ sym) else ret tt).

(** The parenthesization test in [BinaryOperator.Stringify]'s [handleSide]. *)
Definition binaryNeedParen (assoc : Associativity) (ourPrecedence theirPrecedence : N)
    (targetAssoc : Associativity) : bool :=
  (assoc_eqb assoc NonAssociative && N.leb theirPrecedence ourPrecedence) ||
  (negb (assoc_eqb assoc NonAssociative) &&
     (N.ltb theirPrecedence ourPrecedence ||
      N.eqb theirPrecedence ourPrecedence && assoc_eqb assoc targetAssoc)).

Fixpoint stringify (c : Dialect) (e : Expr) {struct e} : M unit :=
  match e with
  | EUnary u x =>
      associativity <- resolveOperatorAssociativity c e ;;
      if assoc_eqb associativity NonAssociative then fail ErrNonAssociative else
      ourPrecedence <- resolveOperatorPrecedence c e ;;
      let write := unaryWrite associativity (u_Symbol u) (stringify c x) in
      if negb (is_operator x) then write false else
      theirPrecedence <- resolveOperatorPrecedence c x ;;
      if N.ltb theirPrecedence ourPrecedence then write true else write false
  | EBinary b l r =>
      assoc <- resolveOperatorAssociativity c e ;;
      ourPrecedence <- resolveOperatorPrecedence c e ;;
      let handleSide (x : Expr) (m : M unit) (targetAssoc : Associativity) : M unit :=
        if negb (is_operator x) then m else
        theirPrecedence <- resolveOperatorPrecedence c x ;;
        if binaryNeedParen assoc ourPrecedence theirPrecedence targetAssoc
        then stringifyParen m else m in
      handleSide l (stringify c l) RightAssociative ;;
      (if b_SuppressSpace b then WriteVerbatim (b_Symbol b)
       else WriteVerbatim (" " ++ b_Symbol b ++ " ")) ;;
      handleSide r (stringify c r) LeftAssociative
  | ETernary t x1 x2 x3 =>
      ourPrecedence <- resolveOperatorPrecedence c e ;;
      let handleExpr (x : Expr) (m : M unit) : M unit :=
        if negb (is_operator x) then m else
        theirPrecedence <- resolveOperatorPrecedence c x ;;
        if N.leb theirPrecedence ourPrecedence then stringifyParen m else m in
      handleExpr x1 (stringify c x1) ;;
      WriteVerbatim (" " ++ t_Symbol1 t ++ " ") ;;
      handleExpr x2 (stringify c x2) ;;
      WriteVerbatim (" " ++ t_Symbol2 t ++ " ") ;;
      handleExpr x3 (stringify c x3)
  | ESQLType s => WriteVerbatim s
  | EColumn tl n =>
      (if nonEmpty tl then WriteIdentifier c tl ;; WriteVerbatim "." else ret tt) ;;
      WriteIdentifier c n
  | EPlaceholder p =>
      pos <- insertPlaceholder p ;;
      WriteVerbatim (makePlaceholder c p pos)
  | ECast x ty =>
      WriteVerbatim "CAST(" ;; stringify c x ;; WriteVerbatim " AS " ;;
      WriteVerbatim ty ;; WriteVerbatim ")"
  | EFunc n args omit =>
      WriteVerbatim n ;;
      match args with
      | [] => if omit then ret tt else WriteVerbatim "()"
      | a0 :: rest =>
          WriteVerbatim "(" ;; stringify c a0 ;;
          (fix go (l : list Expr) : M unit :=
             match l with [] => ret tt | a :: l' => WriteVerbatim "," ;; stringify c a ;; go l' end) rest ;;
          WriteVerbatim ")"
      end
  | ETuple xs =>
      WriteVerbatim "(" ;;
      (* stringifyCommaSeparated *)
      match xs with
      | [] => ret tt
      | x0 :: rest =>
          stringify c x0 ;;
          (fix go (l : list Expr) : M unit :=
             match l with [] => ret tt | a :: l' => WriteVerbatim "," ;; stringify c a ;; go l' end) rest
      end ;;
      WriteVerbatim ")"
  | ECase conds results el =>
      WriteVerbatim "CASE" ;;
      (* [results[i]] is indexed by the position [i] in [conds]. *)
      (fix go (cs : list Expr) (rs : list (M unit)) : M unit :=
         match cs with
         | [] => ret tt
         | cnd :: cs' =>
             WriteVerbatim " WHEN " ;; stringify c cnd ;; WriteVerbatim " THEN " ;;
             match rs with
             | [] => fail ErrIndexOutOfRange
             | r :: rs' => r ;; go cs' rs'
             end
         end) conds (map (stringify c) results) ;;
      match el with
      | None => ret tt
      | Some x => WriteVerbatim " ELSE " ;; stringify c x
      end ;;
      WriteVerbatim " END"
  end.

(** One print pass from a fresh context: the rendered text or the error. *)
Definition render (c : Dialect) (e : Expr) : Error + string :=
  match stringify c e emptyState with
  | inl err => inl err
  | inr (_, s) => inr (buf s)
  end.

(** ** Statement nodes of [grammar.go] *)

Record LabeledColumn := { lc_Expr : Expr; lc_Label : string }.

Record LabeledTable := { lt_Schema : string; lt_Name : string; lt_Label : string }.

Record orderbyItem := {
  o_expr : Expr;
  o_desc : bool;
  o_nullsSet : bool;
  o_nullsLast : bool
}.

Definition Desc (e : Expr) : orderbyItem :=
  {| o_expr := e; o_desc := true; o_nullsSet := false; o_nullsLast := false |}.
Definition Asc (e : Expr) : orderbyItem :=
  {| o_expr := e; o_desc := false; o_nullsSet := false; o_nullsLast := false |}.
Definition NullsLast (o : orderbyItem) : orderbyItem :=
  {| o_expr := o_expr o; o_desc := o_desc o; o_nullsSet := true; o_nullsLast := true |}.
Definition NullsFirst (o : orderbyItem) : orderbyItem :=
  {| o_expr := o_expr o; o_desc := o_desc o; o_nullsSet := true; o_nullsLast := false |}.

(** Pointer fields that may be [nil] are options; a [*FromClause] is its
    [FromClauseItem], a [*GroupByClause] its expression list and a
    [*OrderByClause] its item list. *)
Inductive SelectStmt :=
| MkSelectStmt (columns : list LabeledColumn) (fromClause : option FromClauseItem)
    (whereClause : option Expr) (groupByClause : option (list Expr))
    (havingClause : option Expr) (orderByClause : option (list orderbyItem))
    (limitClause offsetClause : option Expr)
with FromClauseItem :=
| MkFromClauseItem (tableRef : option LabeledTable) (subquery : option LabeledSelectStmt)
    (joinClause : option JoinClause)
with LabeledSelectStmt :=
| MkLabeledSelectStmt (selectStmt : SelectStmt) (label : string)
with JoinClause :=
| MkJoinClause (joinType : string) (left right : FromClauseItem) (on : Expr).

Definition stringifyLabeledColumn (c : Dialect) (l : LabeledColumn) : M unit :=
  stringify c (lc_Expr l) ;; WriteVerbatim " " ;; WriteIdentifier c (lc_Label l).

Definition stringifyLabeledTable (c : Dialect) (l : LabeledTable) : M unit :=
  (if nonEmpty (lt_Schema l) then WriteIdentifier c (lt_Schema l) ;; WriteVerbatim "." else ret tt) ;;
  WriteIdentifier c (lt_Name l) ;; WriteVerbatim " " ;; WriteIdentifier c (lt_Label l).

Definition stringifyOrderbyItem (c : Dialect) (o : orderbyItem) : M unit :=
  stringify c (o_expr o) ;;
  (if o_desc o then WriteVerbatim " DESC" else ret tt) ;;
  (if o_nullsSet o then
     (if o_desc o && o_nullsLast o then WriteVerbatim " NULLS LAST" else ret tt) ;;
     (if negb (o_desc o) && negb (o_nullsLast o) then WriteVerbatim " NULLS FIRST" else ret tt)
   else ret tt).

(** [stringifyCommaSeparated] over already-chosen renderings. *)
Definition stringifyCommaSeparated (ms : list (M unit)) : M unit :=
  match ms with
  | [] => ret tt
  | m0 :: rest => m0 ;; fold_right (fun m acc => WriteVerbatim "," ;; m ;; acc) (ret tt) rest
  end.

(** An optional clause, preceded by one space when present. *)
Definition optClause {A} (o : option A) (f : A -> M unit) : M unit :=
  match o with None => ret tt | Some a => WriteVerbatim " " ;; f a end.

Fixpoint stringifySelectStmt (c : Dialect) (s : SelectStmt) {struct s} : M unit :=
  match s with
  | MkSelectStmt cols from wh gb hv ob lim off =>
      WriteVerbatim "SELECT " ;;
      match cols with
      | [] => fail ErrIndexOutOfRange     (* s.Columns[0] on an empty slice *)
      | c0 :: rest =>
          stringifyLabeledColumn c c0 ;;
          fold_right (fun se acc => WriteVerbatim "," ;; stringifyLabeledColumn c se ;; acc) (ret tt) rest
      end ;;
      match from with
      | None => ret tt
      | Some f => WriteVerbatim " " ;; WriteVerbatim "FROM " ;; stringifyFromClauseItem c f
      end ;;
      optClause wh (fun e => WriteVerbatim "WHERE " ;; stringify c e) ;;
      optClause gb (fun es => WriteVerbatim "GROUP BY " ;; stringifyCommaSeparated (map (stringify c) es)) ;;
      optClause hv (fun e => WriteVerbatim "HAVING " ;; stringify c e) ;;
      optClause ob (fun os => WriteVerbatim "ORDER BY " ;;
                              stringifyCommaSeparated (map (stringifyOrderbyItem c) os)) ;;
      optClause lim (fun e => WriteVerbatim "LIMIT " ;; stringify c e) ;;
      optClause off (fun e => WriteVerbatim "OFFSET " ;; stringify c e)
  end
with stringifyFromClauseItem (c : Dialect) (f : FromClauseItem) {struct f} : M unit :=
  match f with
  | MkFromClauseItem (Some t) _ _ => stringifyLabeledTable c t
  | MkFromClauseItem None (Some q) _ => stringifyLabeledSelectStmt c q
  | MkFromClauseItem None None (Some j) => stringifyJoinClause c j
  | MkFromClauseItem None None None => fail ErrUnknownFromClauseItem
  end
with stringifyLabeledSelectStmt (c : Dialect) (l : LabeledSelectStmt) {struct l} : M unit :=
  match l with
  | MkLabeledSelectStmt s lbl =>
      WriteVerbatim "(" ;; stringifySelectStmt c s ;; WriteVerbatim ") " ;; WriteIdentifier c lbl
  end
with stringifyJoinClause (c : Dialect) (j : JoinClause) {struct j} : M unit :=
  match j with
  | MkJoinClause jt l r on =>
      stringifyFromClauseItem c l ;; WriteVerbatim (" " ++ jt ++ " ") ;;
      stringifyFromClauseItem c r ;; WriteVerbatim " ON " ;; stringify c on
  end.

(** ** Builders of [operator.go] used below *)

Definition unaryOp (ty : OperatorType) (sym : string) (nty : OperatorType) (nsym : string) :
    UnaryOperator :=
  {| u_Type := ty; u_Symbol := sym; u_NegatedType := nty; u_NegatedSymbol := nsym;
     u_CustomPrecedence := 0; u_CustomAssociativity := AssocUnset |}.

Definition binaryOp (ty : OperatorType) (sym : string) (nty : OperatorType) (nsym : string) :
    BinaryOperator :=
  {| b_Type := ty; b_Symbol := sym; b_NegatedType := nty; b_NegatedSymbol := nsym;
     b_CustomPrecedence := 0; b_CustomAssociativity := AssocUnset; b_SuppressSpace := false |}.

Definition Not (e : Expr) : Expr := EUnary (unaryOp OpNot "NOT" OpUnset "") e.
Definition IsNull (e : Expr) : Expr := EUnary (unaryOp OpIsNull "IS NULL" OpIsNotNull "IS NOT NULL") e.
Definition IsNotNull (e : Expr) : Expr := EUnary (unaryOp OpIsNotNull "IS NOT NULL" OpIsNull "IS NULL") e.
Definition And (l r : Expr) : Expr := EBinary (binaryOp OpAnd "AND" OpUnset "") l r.
Definition Or (l r : Expr) : Expr := EBinary (binaryOp OpOr "OR" OpUnset "") l r.
Definition Sub (l r : Expr) : Expr := EBinary (binaryOp OpSub "-" OpUnset "") l r.
Definition Eq (l r : Expr) : Expr := EBinary (binaryOp OpEq "=" OpNotEq "<>") l r.
Definition Between (x1 x2 x3 : Expr) : Expr :=
  ETernary {| t_Type := OpBetween; t_Symbol1 := "BETWEEN"; t_Symbol2 := "AND";
              t_NegatedType := OpNotBetween; t_NegatedSymbol1 := "NOT BETWEEN";
              t_NegatedSymbol2 := "AND"; t_CustomPrecedence := 0;
              t_CustomAssociativity := AssocUnset |} x1 x2 x3.

(** ** A sample dialect ([?] placeholders, unquoted identifiers) *)

Definition samplePrecedence (t : OperatorType) : N :=
  match t with
  | OpMul | OpDiv | OpMod => 9
  | OpAdd | OpSub => 8
  | OpIsNull | OpIsNotNull | OpIsTrue | OpIsNotTrue | OpIsFalse | OpIsNotFalse => 7
  | OpIn | OpNotIn | OpBetween | OpNotBetween | OpLike | OpNotLike | OpILike | OpNotILike => 6
  | OpLt | OpLte | OpGt | OpGte => 5
  | OpEq | OpNotEq => 4
  | OpNot => 3
  | OpAnd => 2
  | OpOr => 1
  | OpUnset => 0
  end%N.

Definition sampleAssociativity (t : OperatorType) : Associativity :=
  match t with
  | OpMul | OpDiv | OpMod | OpAdd | OpSub | OpAnd | OpOr => LeftAssociative
  | OpIsNull | OpIsNotNull | OpIsTrue | OpIsNotTrue | OpIsFalse | OpIsNotFalse => LeftAssociative
  | OpNot => RightAssociative
  | OpUnset => AssocUnset
  | _ => NonAssociative
  end.

Definition sampleDialect : Dialect := {|
  precedenceTable := samplePrecedence;
  associativityTable := sampleAssociativity;
  quoteIdentifier := fun n => n;
  makePlaceholder := fun _ _ => "?" |}.

Definition col (n : string) : Expr := EColumn "" n.

Example render_sub_left :
  render sampleDialect (Sub (Sub (col "a") (col "b")) (col "c")) = inr "a - b - c".
Proof. reflexivity. Qed.

Example render_sub_right :
  render sampleDialect (Sub (col "a") (Sub (col "b") (col "c"))) = inr "a - (b - c)".
Proof. reflexivity. Qed.

Example render_and_or :
  render sampleDialect
    (And (Eq (col "a") (ESQLType "1")) (Or (Eq (col "b") (ESQLType "2")) (Eq (col "c") (ESQLType "3"))))
  = inr "a = 1 AND (b = 2 OR c = 3)".
Proof. reflexivity. Qed.

Example render_not_is_null :
  render sampleDialect (transform (Not (IsNull (col "x")))) = inr "x IS NOT NULL".
Proof. reflexivity. Qed.

Example render_placeholders :
  stringify sampleDialect (Eq (EPlaceholder "x") (EPlaceholder "x")) emptyState
  = inr (tt, {| buf := "? = ?"; bindings := ["x"] |}).
Proof. reflexivity. Qed.

(** ** Readings of the specification's rendering rules, for comparison *)

(** A child is wrapped in parentheses exactly when [p] holds. *)
Definition wrapIf (p : bool) (m : M unit) : M unit := if p then stringifyParen m else m.

(** A child rendering as the specification describes it: an operator child is
    wrapped iff [needParen] holds of its resolved precedence; any other child is
    rendered as is. *)
Definition childSpec (c : Dialect) (e : Expr) (needParen : N -> bool) : M unit :=
  if is_operator e then
    cp <- resolveOperatorPrecedence c e ;; wrapIf (needParen cp) (stringify c e)
  else stringify c e.

(** The binary rule of the specification, with its tie-break target [tie]. *)
Definition specBinaryParen (assoc : Associativity) (own childPrec : N) (tie : Associativity) : bool :=
  match assoc with
  | NonAssociative => N.leb childPrec own
  | _ => N.ltb childPrec own || (N.eqb childPrec own && assoc_eqb assoc tie)
  end.

(** ** General lemmas *)

Lemma append_assoc_str (a b d : string) : (a ++ b) ++ d = a ++ (b ++ d).
Proof. induction a as [|ch a IH]; simpl; [reflexivity | now rewrite IH]. Qed.

Lemma append_empty_r (a : string) : a ++ "" = a.
Proof. induction a as [|ch a IH]; simpl; [reflexivity | now rewrite IH]. Qed.

Lemma binaryNeedParen_spec (a : Associativity) (own cp : N) (tie : Associativity) :
  binaryNeedParen a own cp tie = specBinaryParen a own cp tie.
Proof. destruct a; unfold binaryNeedParen; simpl; rewrite ?orb_false_r; reflexivity. Qed.

Lemma bind_ret_l {A B} (a : A) (k : A -> M B) : bind (ret a) k = k a.
Proof. reflexivity. Qed.

Lemma bind_ext {A B} (m m' : M A) (k k' : A -> M B) :
  (forall s, m s = m' s) -> (forall a s, k a s = k' a s) -> forall s, bind m k s = bind m' k' s.
Proof.
  intros Hm Hk s. unfold bind. rewrite Hm. destruct (m' s) as [e|[a s']]; [reflexivity | apply Hk].
Qed.

(** Unfold the monad and split on the outcome of every sub-computation. *)
Ltac split_results :=
  unfold bind, ret; cbn -[stringify stringifyParen];
  repeat match goal with
  | |- context [match ?m with inl _ => _ | inr _ => _ end] => destruct m as [?|[[] ?]]
  end; reflexivity.

(** ** C1: parenthesization of binary operands *)

(** C1. For a binary node with resolved associativity [assoc] and precedence
    [own], the left operand is wrapped iff it is an operator whose
    precedence [cp] satisfies [(assoc = Non and cp <= own) or (assoc <> Non and
    (cp < own or (cp = own and assoc = Right)))], the right operand likewise with
    tie-break target Left, and a non-operator operand is never wrapped.  For a
    left-associative [SUB], [SUB(SUB(a,b),c)] renders as [a - b - c] and
    [SUB(a,SUB(b,c))] as [a - (b - c)]. *)
Theorem binary_parenthesization :
  (forall (c : Dialect) (b : BinaryOperator) (l r : Expr) (assoc : Associativity) (own : N) (s : State),
     resolveOperatorAssociativity c (EBinary b l r) = ret assoc ->
     resolveOperatorPrecedence c (EBinary b l r) = ret own ->
     stringify c (EBinary b l r) s =
     (childSpec c l (fun cp => specBinaryParen assoc own cp RightAssociative) ;;
      (if b_SuppressSpace b then WriteVerbatim (b_Symbol b)
       else WriteVerbatim (" " ++ b_Symbol b ++ " ")) ;;
      childSpec c r (fun cp => specBinaryParen assoc own cp LeftAssociative)) s) /\
  (forall (c : Dialect) (a b d : string),
     precedenceTable c OpSub <> 0%N ->
     associativityTable c OpSub = LeftAssociative ->
     render c (Sub (Sub (col a) (col b)) (col d)) =
       inr (quoteIdentifier c a ++ " - " ++ quoteIdentifier c b ++ " - " ++ quoteIdentifier c d) /\
     render c (Sub (col a) (Sub (col b) (col d))) =
       inr (quoteIdentifier c a ++ " - (" ++ quoteIdentifier c b ++ " - " ++ quoteIdentifier c d ++ ")")).
Proof.
  split.
  - intros c b l r assoc own s Ha Hp.
    cbn [stringify]. rewrite Ha, bind_ret_l. cbv beta. rewrite Hp, bind_ret_l. cbv beta zeta.
    unfold childSpec, wrapIf.
    apply bind_ext; [intro s0 | intros [] s0; apply bind_ext; [intro s1 | intros [] s1]].
    + destruct (is_operator l); simpl; [|reflexivity].
      apply bind_ext; [reflexivity | intros cp s1; now rewrite binaryNeedParen_spec].
    + now destruct (b_SuppressSpace b).
    + destruct (is_operator r); simpl; [|reflexivity].
      apply bind_ext; [reflexivity | intros cp s2; now rewrite binaryNeedParen_spec].
  - intros c a b d Hp Ha.
    assert (Hp' : N.eqb (precedenceTable c OpSub) 0 = false) by (apply N.eqb_neq; exact Hp).
    assert (Rp : forall x y, resolveOperatorPrecedence c (EBinary (binaryOp OpSub "-" OpUnset "") x y) = ret (precedenceTable c OpSub))
      by (intros; unfold resolveOperatorPrecedence; simpl; now rewrite Hp').
    assert (Ra : forall x y, resolveOperatorAssociativity c (EBinary (binaryOp OpSub "-" OpUnset "") x y) = ret LeftAssociative)
      by (intros; unfold resolveOperatorAssociativity; simpl; now rewrite Ha).
    unfold render, col, Sub; cbn [stringify is_operator negb]. rewrite !Rp, !Ra, !bind_ret_l.
    cbv beta zeta. rewrite ?bind_ret_l. unfold binaryNeedParen.
    rewrite N.ltb_irrefl, N.eqb_refl, N.leb_refl. simpl.
    rewrite !append_assoc_str. split; reflexivity.
Qed.

Lemma binary_parenthesization_witness :
  (resolveOperatorAssociativity sampleDialect (Sub (col "a") (col "b")) = ret LeftAssociative /\
   resolveOperatorPrecedence sampleDialect (Sub (col "a") (col "b")) = ret 8%N /\
   stringify sampleDialect (Sub (col "a") (col "b")) emptyState =
   (childSpec sampleDialect (col "a") (fun cp => specBinaryParen LeftAssociative 8%N cp RightAssociative) ;;
    WriteVerbatim " - " ;;
    childSpec sampleDialect (col "b") (fun cp => specBinaryParen LeftAssociative 8%N cp LeftAssociative))
     emptyState) /\
  (precedenceTable sampleDialect OpSub <> 0%N /\
   associativityTable sampleDialect OpSub = LeftAssociative /\
   render sampleDialect (Sub (Sub (col "a") (col "b")) (col "c")) = inr ("a" ++ " - " ++ "b" ++ " - " ++ "c") /\
   render sampleDialect (Sub (col "a") (Sub (col "b") (col "c"))) = inr ("a" ++ " - (" ++ "b" ++ " - " ++ "c" ++ ")")).
Proof.
  split.
  - split; [reflexivity | split; [reflexivity |]].
    exact (proj1 binary_parenthesization sampleDialect (binaryOp OpSub "-" OpUnset "") (col "a") (col "b") LeftAssociative 8%N emptyState
             eq_refl eq_refl).
  - split; [discriminate | split; [reflexivity |]].
    exact (proj2 binary_parenthesization sampleDialect "a" "b" "c" ltac:(discriminate) eq_refl).
Defined.

(** Resolution never touches the state: it either yields a value or fails. *)
Lemma resolveOperatorPrecedence_cases (c : Dialect) (e : Expr) :
  (exists p, p <> 0%N /\ resolveOperatorPrecedence c e = ret p) \/
  resolveOperatorPrecedence c e = fail ErrNoPrecedence.
Proof.
  unfold resolveOperatorPrecedence.
  destruct (N.eqb_spec (precedence e) 0) as [H0|H0]; simpl; [|left; now exists (precedence e)].
  destruct (N.eqb_spec (precedenceTable c (operatorType e)) 0) as [H1|H1]; simpl; [now right|].
  left; now exists (precedenceTable c (operatorType e)).
Qed.

(** ** C3: parenthesization of ternary operands *)

(** C3. A ternary node with resolved precedence [own] renders as
    [child1 SYMBOL1 child2 SYMBOL2 child3], where each operand that is an
    operator of resolved precedence [cp] is wrapped iff [cp <= own] (a tie
    wraps), and an operand that is not an operator is never wrapped. *)
Theorem ternary_parenthesization (c : Dialect) (t : TernaryOperator) (x1 x2 x3 : Expr) (own : N)
    (s : State) :
  resolveOperatorPrecedence c (ETernary t x1 x2 x3) = ret own ->
  stringify c (ETernary t x1 x2 x3) s =
  (childSpec c x1 (fun cp => N.leb cp own) ;;
   WriteVerbatim (" " ++ t_Symbol1 t ++ " ") ;;
   childSpec c x2 (fun cp => N.leb cp own) ;;
   WriteVerbatim (" " ++ t_Symbol2 t ++ " ") ;;
   childSpec c x3 (fun cp => N.leb cp own)) s.
Proof.
  intros Hp. cbn [stringify]. rewrite Hp, bind_ret_l. cbv beta zeta.
  unfold childSpec, wrapIf.
  destruct (is_operator x1), (is_operator x2), (is_operator x3); reflexivity.
Qed.

Lemma ternary_parenthesization_witness :
  resolveOperatorPrecedence sampleDialect (Between (Between (col "a") (col "b") (col "c")) (col "d") (col "e"))
    = ret 6%N /\
  stringify sampleDialect (Between (Between (col "a") (col "b") (col "c")) (col "d") (col "e")) emptyState =
  (childSpec sampleDialect (Between (col "a") (col "b") (col "c")) (fun cp => N.leb cp 6%N) ;;
   WriteVerbatim " BETWEEN " ;;
   childSpec sampleDialect (col "d") (fun cp => N.leb cp 6%N) ;;
   WriteVerbatim " AND " ;;
   childSpec sampleDialect (col "e") (fun cp => N.leb cp 6%N)) emptyState.
Proof.
  split; [reflexivity |].
  unfold Between at 1 2; apply ternary_parenthesization; reflexivity.
Defined.

Example ternary_tie_wraps :
  render sampleDialect (Between (Between (col "a") (col "b") (col "c")) (col "d") (col "e"))
  = inr "(a BETWEEN b AND c) BETWEEN d AND e".
Proof. reflexivity. Qed.

(** ** C4: rendering of unary operators *)

(** C4. A unary node whose resolved associativity is NonAssociative fails with
    [ErrNonAssociative]; a Right-associative one renders [SYMBOL operand], a
    Left-associative one [operand SYMBOL]; the operand is wrapped iff it is an
    operator whose resolved precedence is strictly below the node's own. *)
Theorem unary_rendering (c : Dialect) (u : UnaryOperator) (x : Expr) (s : State) :
  (resolveOperatorAssociativity c (EUnary u x) = ret NonAssociative ->
   stringify c (EUnary u x) s = inl ErrNonAssociative) /\
  (forall own : N,
   resolveOperatorAssociativity c (EUnary u x) = ret RightAssociative ->
   resolveOperatorPrecedence c (EUnary u x) = ret own ->
   stringify c (EUnary u x) s =
   (WriteVerbatim (u_Symbol u ++ " ") ;; childSpec c x (fun cp => N.ltb cp own)) s) /\
  (forall own : N,
   resolveOperatorAssociativity c (EUnary u x) = ret LeftAssociative ->
   resolveOperatorPrecedence c (EUnary u x) = ret own ->
   stringify c (EUnary u x) s =
   (childSpec c x (fun cp => N.ltb cp own) ;; WriteVerbatim (" " ++ u_Symbol u)) s).
Proof.
  split; [|split].
  - intros Ha. cbn [stringify]. rewrite Ha, bind_ret_l. reflexivity.
  - intros own Ha Hp. cbn [stringify]. rewrite Ha, bind_ret_l. cbv beta zeta.
    rewrite Hp. unfold childSpec, wrapIf, unaryWrite.
    destruct (is_operator x); [|split_results].
    destruct (resolveOperatorPrecedence_cases c x) as [[p [_ Hx]]|Hx]; rewrite Hx; [|reflexivity].
    unfold bind, ret; cbn -[stringify stringifyParen]; destruct (N.ltb p own); split_results.
  - intros own Ha Hp. cbn [stringify]. rewrite Ha, bind_ret_l. cbv beta zeta.
    rewrite Hp. unfold childSpec, wrapIf, unaryWrite.
    destruct (is_operator x); [|split_results].
    destruct (resolveOperatorPrecedence_cases c x) as [[p [_ Hx]]|Hx]; rewrite Hx; [|reflexivity].
    unfold bind, ret; cbn -[stringify stringifyParen]; destruct (N.ltb p own); split_results.
Qed.

Lemma unary_rendering_witness :
  resolveOperatorAssociativity sampleDialect (Not (col "a")) = ret RightAssociative /\
  resolveOperatorPrecedence sampleDialect (Not (col "a")) = ret 3%N /\
  stringify sampleDialect (Not (col "a")) emptyState =
  (WriteVerbatim ("NOT" ++ " ") ;; childSpec sampleDialect (col "a") (fun cp => N.ltb cp 3%N)) emptyState.
Proof.
  split; [reflexivity | split; [reflexivity |]].
  exact (proj1 (proj2 (unary_rendering sampleDialect (unaryOp OpNot "NOT" OpUnset "") (col "a") emptyState))
           3%N eq_refl eq_refl).
Defined.

(** ** C5: resolution of precedence and associativity *)

Lemma resolveOperatorAssociativity_cases (c : Dialect) (e : Expr) :
  (exists a, a <> AssocUnset /\ resolveOperatorAssociativity c e = ret a) \/
  resolveOperatorAssociativity c e = fail ErrNoAssociativity.
Proof.
  unfold resolveOperatorAssociativity.
  destruct (associativity e) eqn:E; simpl;
    try (left; eexists; split; [|reflexivity]; discriminate).
  destruct (associativityTable c (operatorType e)) eqn:F; simpl;
    try (left; eexists; split; [|reflexivity]; discriminate).
  now right.
Qed.

(** A dialect whose associativity table is empty. *)
Definition noAssocDialect : Dialect := {|
  precedenceTable := samplePrecedence;
  associativityTable := fun _ => AssocUnset;
  quoteIdentifier := fun n => n;
  makePlaceholder := fun _ _ => "?" |}.

(** A ternary operator with its associativity override replaced by [a]. *)
Definition setTernaryAssociativity (t : TernaryOperator) (a : Associativity) : TernaryOperator := {|
  t_Type := t_Type t; t_Symbol1 := t_Symbol1 t; t_Symbol2 := t_Symbol2 t;
  t_NegatedType := t_NegatedType t; t_NegatedSymbol1 := t_NegatedSymbol1 t;
  t_NegatedSymbol2 := t_NegatedSymbol2 t; t_CustomPrecedence := t_CustomPrecedence t;
  t_CustomAssociativity := a |}.

(** C5 (counterexample). A [BETWEEN] node whose associativity resolves to
    nothing still renders: the ternary path never resolves associativity. *)
Lemma operator_resolution_counterexample :
  resolveOperatorAssociativity noAssocDialect (Between (col "a") (col "b") (col "c"))
    = fail ErrNoAssociativity /\
  render noAssocDialect (Between (col "a") (col "b") (col "c")) = inr "a BETWEEN b AND c".
Proof. split; reflexivity. Qed.

(** C5 (amended). An operator's effective precedence is its own non-zero
    override, else the dialect's non-zero entry, else resolution fails with
    [ErrNoPrecedence]; its effective associativity is its own set override,
    else the dialect's set entry, else resolution fails with
    [ErrNoAssociativity]; zero and "unset" are never returned.  Unary and
    binary rendering resolve associativity first, then precedence, and fail
    with the first failure (a unary node whose associativity resolves to
    [NonAssociative] fails with [ErrNonAssociative] in between); ternary
    rendering resolves the precedence only, so its result does not depend on
    the node's associativity and a failing associativity resolution still
    renders the node's three children and symbols. *)
Theorem operator_resolution (c : Dialect) (s : State) :
  (forall e, precedence e <> 0%N -> resolveOperatorPrecedence c e s = inr (precedence e, s)) /\
  (forall e, precedence e = 0%N -> precedenceTable c (operatorType e) <> 0%N ->
     resolveOperatorPrecedence c e s = inr (precedenceTable c (operatorType e), s)) /\
  (forall e, precedence e = 0%N -> precedenceTable c (operatorType e) = 0%N ->
     resolveOperatorPrecedence c e s = inl ErrNoPrecedence) /\
  (forall e s', resolveOperatorPrecedence c e s <> inr (0%N, s')) /\
  (forall e, associativity e <> AssocUnset ->
     resolveOperatorAssociativity c e s = inr (associativity e, s)) /\
  (forall e, associativity e = AssocUnset -> associativityTable c (operatorType e) <> AssocUnset ->
     resolveOperatorAssociativity c e s = inr (associativityTable c (operatorType e), s)) /\
  (forall e, associativity e = AssocUnset -> associativityTable c (operatorType e) = AssocUnset ->
     resolveOperatorAssociativity c e s = inl ErrNoAssociativity) /\
  (forall e s', resolveOperatorAssociativity c e s <> inr (AssocUnset, s')) /\
  (forall u x,
     resolveOperatorAssociativity c (EUnary u x) = fail ErrNoAssociativity ->
     stringify c (EUnary u x) s = inl ErrNoAssociativity) /\
  (forall u x,
     resolveOperatorAssociativity c (EUnary u x) = ret NonAssociative ->
     stringify c (EUnary u x) s = inl ErrNonAssociative) /\
  (forall u x a,
     resolveOperatorAssociativity c (EUnary u x) = ret a -> a <> NonAssociative ->
     resolveOperatorPrecedence c (EUnary u x) = fail ErrNoPrecedence ->
     stringify c (EUnary u x) s = inl ErrNoPrecedence) /\
  (forall b l r,
     resolveOperatorAssociativity c (EBinary b l r) = fail ErrNoAssociativity ->
     stringify c (EBinary b l r) s = inl ErrNoAssociativity) /\
  (forall b l r a,
     resolveOperatorAssociativity c (EBinary b l r) = ret a ->
     resolveOperatorPrecedence c (EBinary b l r) = fail ErrNoPrecedence ->
     stringify c (EBinary b l r) s = inl ErrNoPrecedence) /\
  (forall t x1 x2 x3,
     resolveOperatorPrecedence c (ETernary t x1 x2 x3) = fail ErrNoPrecedence ->
     stringify c (ETernary t x1 x2 x3) s = inl ErrNoPrecedence) /\
  (forall t x1 x2 x3 a,
     stringify c (ETernary (setTernaryAssociativity t a) x1 x2 x3) s =
     stringify c (ETernary t x1 x2 x3) s) /\
  (forall t x1 x2 x3 p,
     resolveOperatorAssociativity c (ETernary t x1 x2 x3) = fail ErrNoAssociativity ->
     resolveOperatorPrecedence c (ETernary t x1 x2 x3) = ret p ->
     stringify c (ETernary t x1 x2 x3) s =
     (childSpec c x1 (fun cp => N.leb cp p) ;;
      WriteVerbatim (" " ++ t_Symbol1 t ++ " ") ;;
      childSpec c x2 (fun cp => N.leb cp p) ;;
      WriteVerbatim (" " ++ t_Symbol2 t ++ " ") ;;
      childSpec c x3 (fun cp => N.leb cp p)) s).
Proof.
  repeat split.
  - intros e H. unfold resolveOperatorPrecedence. apply N.eqb_neq in H. now rewrite H.
  - intros e H0 H1. unfold resolveOperatorPrecedence. apply N.eqb_neq in H1. now rewrite H0, H1.
  - intros e H0 H1. unfold resolveOperatorPrecedence. now rewrite H0, H1.
  - intros e s'. destruct (resolveOperatorPrecedence_cases c e) as [[p [Hp R]]|R]; rewrite R.
    + intros [=]; auto.
    + discriminate.
  - intros e H. unfold resolveOperatorAssociativity.
    destruct (associativity e); [contradiction | reflexivity ..].
  - intros e H0 H1. unfold resolveOperatorAssociativity. rewrite H0.
    destruct (associativityTable c (operatorType e)); [contradiction | reflexivity ..].
  - intros e H0 H1. unfold resolveOperatorAssociativity. now rewrite H0, H1.
  - intros e s'. destruct (resolveOperatorAssociativity_cases c e) as [[a [Ha R]]|R]; rewrite R.
    + intros [=]; auto.
    + discriminate.
  - intros u x H. cbn [stringify]. rewrite H. reflexivity.
  - intros u x H. cbn [stringify]. rewrite H, bind_ret_l. reflexivity.
  - intros u x a H Hn Hp. cbn [stringify]. rewrite H, bind_ret_l. cbv beta zeta.
    destruct a; [| contradiction | |]; cbn [assoc_eqb]; rewrite Hp; reflexivity.
  - intros b l r H. cbn [stringify]. rewrite H. reflexivity.
  - intros b l r a H Hp. cbn [stringify]. rewrite H, bind_ret_l. cbv beta zeta. rewrite Hp. reflexivity.
  - intros t x1 x2 x3 Hp. cbn [stringify]. rewrite Hp. reflexivity.
  - intros t x1 x2 x3 p _ Hp. cbn [stringify]. rewrite Hp, bind_ret_l. cbv beta zeta.
    unfold childSpec, wrapIf.
    destruct (is_operator x1), (is_operator x2), (is_operator x3); reflexivity.
Qed.

Lemma operator_resolution_witness :
  precedence (Sub (col "a") (col "b")) = 0%N /\
  precedenceTable sampleDialect (operatorType (Sub (col "a") (col "b"))) <> 0%N /\
  resolveOperatorPrecedence sampleDialect (Sub (col "a") (col "b")) emptyState = inr (8%N, emptyState).
Proof.
  split; [reflexivity | split; [discriminate |]].
  exact (proj1 (proj2 (operator_resolution sampleDialect emptyState)) (Sub (col "a") (col "b"))
           eq_refl ltac:(discriminate)).
Defined.

(** ** C6: placeholder binding *)

(** Nested induction over expressions. *)
Definition Expr_ind' (P : Expr -> Prop)
  (HU : forall u x, P x -> P (EUnary u x))
  (HB : forall b l r, P l -> P r -> P (EBinary b l r))
  (HT : forall t x1 x2 x3, P x1 -> P x2 -> P x3 -> P (ETernary t x1 x2 x3))
  (HS : forall s, P (ESQLType s))
  (HCol : forall tl n, P (EColumn tl n))
  (HP : forall p, P (EPlaceholder p))
  (HCast : forall x ty, P x -> P (ECast x ty))
  (HF : forall n args o, Forall P args -> P (EFunc n args o))
  (HTup : forall xs, Forall P xs -> P (ETuple xs))
  (HCase : forall cs rs el, Forall P cs -> Forall P rs -> (forall x, el = Some x -> P x) ->
           P (ECase cs rs el)) :
  forall e, P e :=
  fix F (e : Expr) : P e :=
    let fix FL (l : list Expr) : Forall P l :=
      match l with [] => Forall_nil P | x :: l' => Forall_cons x (F x) (FL l') end in
    match e with
    | EUnary u x => HU u x (F x)
    | EBinary b l r => HB b l r (F l) (F r)
    | ETernary t x1 x2 x3 => HT t x1 x2 x3 (F x1) (F x2) (F x3)
    | ESQLType s => HS s
    | EColumn tl n => HCol tl n
    | EPlaceholder p => HP p
    | ECast x ty => HCast x ty (F x)
    | EFunc n args o => HF n args o (FL args)
    | ETuple xs => HTup xs (FL xs)
    | ECase cs rs el =>
        HCase cs rs el (FL cs) (FL rs)
          (fun x (H : el = Some x) =>
             match H in _ = o return (match o with Some y => P y | None => True end) with
             | eq_refl => match el with Some y => F y | None => I end
             end)
    end.

(** [s'] binds every name [s] binds, at the same place. *)
Definition extends (s s' : State) : Prop := exists l, bindings s' = (bindings s ++ l)%list.

(** A computation that only ever appends to the binding table. *)
Definition Grows {A} (m : M A) : Prop := forall s a s', m s = inr (a, s') -> extends s s'.

Lemma extends_refl s : extends s s.
Proof. exists []. now rewrite app_nil_r. Qed.

Lemma extends_trans s1 s2 s3 : extends s1 s2 -> extends s2 s3 -> extends s1 s3.
Proof. intros [l1 H1] [l2 H2]. exists (l1 ++ l2)%list. now rewrite H2, H1, app_assoc. Qed.

Lemma Grows_ret {A} (a : A) : Grows (ret a).
Proof. intros s b s' [=]; subst; apply extends_refl. Qed.

Lemma Grows_fail {A} (e : Error) : Grows (@fail A e).
Proof. intros s b s' [=]. Qed.

Lemma Grows_bind {A B} (m : M A) (k : A -> M B) :
  Grows m -> (forall a, Grows (k a)) -> Grows (bind m k).
Proof.
  intros Hm Hk s b s'. unfold bind.
  destruct (m s) as [e|[a s1]] eqn:E; [discriminate|].
  intros H. eapply extends_trans; [eapply Hm; exact E | eapply Hk; exact H].
Qed.

Lemma Grows_if {A} (b : bool) (m1 m2 : M A) : Grows m1 -> Grows m2 -> Grows (if b then m1 else m2).
Proof. now destruct b. Qed.

Lemma Grows_WriteVerbatim t : Grows (WriteVerbatim t).
Proof. intros s a s' [=]; subst. exists []. simpl. now rewrite app_nil_r. Qed.

Lemma Grows_insertPlaceholder p : Grows (insertPlaceholder p).
Proof.
  intros s a s'. unfold insertPlaceholder.
  destruct (indexOf p (bindings s)); intros [=]; subst; [apply extends_refl | now exists [p]].
Qed.

Lemma Grows_resolveOperatorPrecedence c e : Grows (resolveOperatorPrecedence c e).
Proof.
  destruct (resolveOperatorPrecedence_cases c e) as [[p [_ R]]|R]; rewrite R;
    [apply Grows_ret | apply Grows_fail].
Qed.

Lemma Grows_resolveOperatorAssociativity c e : Grows (resolveOperatorAssociativity c e).
Proof.
  destruct (resolveOperatorAssociativity_cases c e) as [[a [_ R]]|R]; rewrite R;
    [apply Grows_ret | apply Grows_fail].
Qed.

Lemma Grows_stringifyParen m : Grows m -> Grows (stringifyParen m).
Proof.
  intros H. unfold stringifyParen.
  repeat (apply Grows_bind; intros; try apply Grows_WriteVerbatim); auto; apply Grows_WriteVerbatim.
Qed.

Create HintDb grows.
#[local] Hint Resolve Grows_ret Grows_fail Grows_bind Grows_if Grows_WriteVerbatim
  Grows_insertPlaceholder Grows_resolveOperatorPrecedence Grows_resolveOperatorAssociativity
  Grows_stringifyParen : grows.

Lemma Grows_stringify (c : Dialect) (e : Expr) : Grows (stringify c e).
Proof.
  induction e using Expr_ind'; cbn [stringify]; unfold WriteIdentifier, unaryWrite.
  - repeat (apply Grows_bind; intros) || apply Grows_if; eauto 6 with grows.
  - repeat (apply Grows_bind; intros) || apply Grows_if; eauto 6 with grows.
  - repeat (apply Grows_bind; intros) || apply Grows_if; eauto 6 with grows.
  - auto with grows.
  - repeat (apply Grows_bind; intros) || apply Grows_if; eauto with grows.
  - repeat (apply Grows_bind; intros); eauto with grows.
  - repeat (apply Grows_bind; intros); eauto with grows.
  - apply Grows_bind; [auto with grows | intros _].
    destruct args as [|a0 rest]; [auto with grows|].
    inversion H as [|? ? Ha0 Hrest]; subst; clear H.
    apply Grows_bind; [auto with grows | intros _].
    apply Grows_bind; [exact Ha0 | intros _].
    apply Grows_bind; [| intros _; auto with grows].
    induction Hrest as [|a l Ha Hl IH]; cbn; [auto with grows|].
    apply Grows_bind; [auto with grows | intros _]. apply Grows_bind; [exact Ha | intros _]. exact IH.
  - apply Grows_bind; [auto with grows | intros _].
    apply Grows_bind; [| intros _; auto with grows].
    destruct xs as [|x0 rest]; [auto with grows|].
    inversion H as [|? ? Hx0 Hrest]; subst; clear H.
    apply Grows_bind; [exact Hx0 | intros _].
    induction Hrest as [|a l Ha Hl IH]; cbn; [auto with grows|].
    apply Grows_bind; [auto with grows | intros _]. apply Grows_bind; [exact Ha | intros _]. exact IH.
  - apply Grows_bind; [auto with grows | intros _].
    apply Grows_bind.
    + assert (Hm : Forall Grows (map (stringify c) rs)) by (apply Forall_map; exact H0).
      clear H0. generalize (map (stringify c) rs) Hm. clear Hm.
      induction H as [|cnd cs' Hc Hcs IH]; intros rs' Hm; cbn; [auto with grows|].
      apply Grows_bind; [auto with grows | intros _]. apply Grows_bind; [exact Hc | intros _].
      apply Grows_bind; [auto with grows | intros _].
      destruct Hm as [|r rs'' Hr Hrs]; [auto with grows|].
      apply Grows_bind; [exact Hr | intros _]. apply IH; exact Hrs.
    + intros _. apply Grows_bind; [| intros _; auto with grows].
      destruct el as [x|]; [|auto with grows].
      apply Grows_bind; [auto with grows | intros _]. now apply H1.
Qed.

Lemma indexOf_app (p : string) (l l' : list string) (i : nat) :
  indexOf p l = Some i -> indexOf p (l ++ l')%list = Some i.
Proof.
  revert i; induction l as [|y l IH]; intros i; simpl; [discriminate|].
  destruct (String.eqb p y); [auto|].
  destruct (indexOf p l) as [j|]; simpl; intros [=]; subst. now rewrite (IH j eq_refl).
Qed.

Lemma indexOf_app_new (p : string) (l : list string) :
  indexOf p l = None -> indexOf p (l ++ [p])%list = Some (length l).
Proof.
  induction l as [|y l IH]; simpl.
  - now rewrite String.eqb_refl.
  - destruct (String.eqb p y); [discriminate|].
    destruct (indexOf p l); [discriminate|]. intros _. now rewrite IH.
Qed.

Lemma stringify_placeholder (c : Dialect) (p : string) (s : State) :
  stringify c (EPlaceholder p) s =
  match indexOf p (bindings s) with
  | Some i =>
      inr (tt, {| buf := buf s ++ makePlaceholder c p (N.of_nat (S i)); bindings := bindings s |})
  | None =>
      inr (tt, {| buf := buf s ++ makePlaceholder c p (N.of_nat (S (length (bindings s))));
                  bindings := (bindings s ++ [p])%list |})
  end.
Proof.
  cbn [stringify]. unfold bind, insertPlaceholder.
  destruct (indexOf p (bindings s)); reflexivity.
Qed.

Lemma placeholder_step (c : Dialect) (p : string) (s s1 : State) :
  stringify c (EPlaceholder p) s = inr (tt, s1) ->
  exists i, indexOf p (bindings s1) = Some i /\
            buf s1 = buf s ++ makePlaceholder c p (N.of_nat (S i)) /\
            (forall j, indexOf p (bindings s) = Some j -> i = j).
Proof.
  rewrite stringify_placeholder. destruct (indexOf p (bindings s)) as [i|] eqn:E; intros [=]; subst.
  - exists i; simpl; repeat split; auto. intros j [=]; auto.
  - exists (length (bindings s)); simpl; repeat split.
    + now apply indexOf_app_new.
    + intros j [=].
Qed.

(** C6. Within one print pass, a placeholder leaf whose name is already bound
    reuses that position; a new name gets the next sequential 1-based position
    (one past the number of names bound so far); the text written is the
    dialect's [makePlaceholder] of (name, position).  Every rendering step only
    appends to the binding table, so two leaves with the same name rendered in
    one pass, with any rendering in between, write identical text at
    the same position. *)
Theorem placeholder_binding (c : Dialect) :
  (forall p s, stringify c (EPlaceholder p) s =
     match indexOf p (bindings s) with
     | Some i =>
         inr (tt, {| buf := buf s ++ makePlaceholder c p (N.of_nat (S i)); bindings := bindings s |})
     | None =>
         inr (tt, {| buf := buf s ++ makePlaceholder c p (N.of_nat (S (length (bindings s))));
                     bindings := (bindings s ++ [p])%list |})
     end) /\
  (forall e, Grows (stringify c e)) /\
  (forall (p : string) (m : M unit) (s s1 s2 s3 : State),
     Grows m ->
     stringify c (EPlaceholder p) s = inr (tt, s1) ->
     m s1 = inr (tt, s2) ->
     stringify c (EPlaceholder p) s2 = inr (tt, s3) ->
     exists pos, buf s1 = buf s ++ makePlaceholder c p pos /\
                 buf s3 = buf s2 ++ makePlaceholder c p pos).
Proof.
  split; [exact (stringify_placeholder c) | split; [exact (Grows_stringify c) |]].
  intros p m s s1 s2 s3 Hm H1 H2 H3.
  destruct (placeholder_step c p s s1 H1) as [i [Hi [Hb1 _]]].
  destruct (Hm s1 tt s2 H2) as [l Hl].
  assert (Hi2 : indexOf p (bindings s2) = Some i) by (rewrite Hl; now apply indexOf_app).
  destruct (placeholder_step c p s2 s3 H3) as [k [_ [Hb3 Hk]]].
  exists (N.of_nat (S i)). split; [exact Hb1|]. rewrite Hb3. now rewrite (Hk i Hi2).
Qed.

Lemma placeholder_binding_witness :
  Grows (stringify sampleDialect (col "a")) /\
  stringify sampleDialect (EPlaceholder "x") emptyState = inr (tt, {| buf := "?"; bindings := ["x"] |}) /\
  stringify sampleDialect (col "a") {| buf := "?"; bindings := ["x"] |}
    = inr (tt, {| buf := "?a"; bindings := ["x"] |}) /\
  stringify sampleDialect (EPlaceholder "x") {| buf := "?a"; bindings := ["x"] |}
    = inr (tt, {| buf := "?a?"; bindings := ["x"] |}) /\
  exists pos, "?" = "" ++ makePlaceholder sampleDialect "x" pos /\
              "?a?" = "?a" ++ makePlaceholder sampleDialect "x" pos.
Proof.
  assert (G : Grows (stringify sampleDialect (col "a"))) by exact (Grows_stringify sampleDialect _).
  split; [exact G | split; [reflexivity | split; [reflexivity | split; [reflexivity |]]]].
  exact (proj2 (proj2 (placeholder_binding sampleDialect)) "x" (stringify sampleDialect (col "a"))
           emptyState {| buf := "?"; bindings := ["x"] |} {| buf := "?a"; bindings := ["x"] |}
           {| buf := "?a?"; bindings := ["x"] |} G eq_refl eq_refl eq_refl).
Defined.

(** ** The equations of [Transform] as the source writes them *)

Lemma transform_not_negatable (u : UnaryOperator) (x : Expr) :
  isNot u = true -> is_operator x = true -> negatable x = true ->
  transform (EUnary u x) = transform (negate x).
Proof.
  intros Hu Ho Hn.
  destruct x as [w y|b l r|t x1 x2 x3| | | | | | |]; try discriminate;
    cbn [transform negate]; rewrite Hu; cbn [negate]; rewrite Ho, Hn; simpl andb; cbv iota.
  - destruct (isNot w); reflexivity.
  - reflexivity.
  - reflexivity.
Qed.

Lemma transform_not_plain (u : UnaryOperator) (x : Expr) :
  isNot u = true -> is_operator x && negatable x = false ->
  transform (EUnary u x) = EUnary u (transform x).
Proof.
  intros Hu H. destruct x; cbn [transform]; rewrite Hu; simpl in H |- *; rewrite ?H; reflexivity.
Qed.

Lemma transform_unary_plain (u : UnaryOperator) (x : Expr) :
  isNot u = false -> transform (EUnary u x) = EUnary u (transform x).
Proof. intros Hu. cbn [transform]. now rewrite Hu. Qed.

(** ** C2: collapsing of negations *)

(** C2. Rewriting a NOT whose child is a negatable operator yields the rewrite
    of that child's negation; a NOT whose child is not a negatable operator is
    kept with its child rewritten.  The logical NOT is always negatable and its
    negation is its child.  Hence [rewrite(NOT(IS_NULL(x)))] is
    [IS_NOT_NULL(rewrite x)] and, for an already canonical [x] (a column, a
    placeholder, ...), renders exactly as [IS_NOT_NULL(x)]; and
    [rewrite(NOT(NOT(P)))] renders exactly as [rewrite(P)] for every [P]. *)
Theorem not_normalization :
  (forall u x, isNot u = true -> is_operator x = true -> negatable x = true ->
     transform (EUnary u x) = transform (negate x)) /\
  (forall u x, isNot u = true -> is_operator x && negatable x = false ->
     transform (EUnary u x) = EUnary u (transform x)) /\
  (forall u x, isNot u = true -> negatable (EUnary u x) = true /\ negate (EUnary u x) = x) /\
  (forall x, transform (Not (IsNull x)) = IsNotNull (transform x)) /\
  (forall x, transform x = x ->
     forall c s, stringify c (transform (Not (IsNull x))) s = stringify c (IsNotNull x) s) /\
  (forall P, transform (Not (Not P)) = transform P) /\
  (forall P c s, stringify c (transform (Not (Not P))) s = stringify c (transform P) s).
Proof.
  assert (NN : forall P, transform (Not (Not P)) = transform P).
  { intros P. unfold Not. rewrite transform_not_negatable by reflexivity. reflexivity. }
  assert (NI : forall x, transform (Not (IsNull x)) = IsNotNull (transform x)).
  { intros x. unfold Not, IsNull. rewrite transform_not_negatable by reflexivity. reflexivity. }
  split; [exact transform_not_negatable|].
  split; [exact transform_not_plain|].
  split; [intros u x Hu; unfold negatable, negate; rewrite Hu; auto|].
  split; [exact NI|].
  split; [intros x Hx c s; now rewrite NI, Hx|].
  split; [exact NN|].
  intros P c s. now rewrite NN.
Qed.

Lemma not_normalization_witness :
  isNot (unaryOp OpNot "NOT" OpUnset "") = true /\
  is_operator (IsNull (col "x")) = true /\
  negatable (IsNull (col "x")) = true /\
  transform (col "x") = col "x" /\
  transform (EUnary (unaryOp OpNot "NOT" OpUnset "") (IsNull (col "x"))) = transform (negate (IsNull (col "x"))) /\
  stringify sampleDialect (transform (Not (IsNull (col "x")))) emptyState
    = stringify sampleDialect (IsNotNull (col "x")) emptyState.
Proof.
  split; [reflexivity | split; [reflexivity | split; [reflexivity | split; [reflexivity | split]]]].
  - exact (proj1 not_normalization (unaryOp OpNot "NOT" OpUnset "") (IsNull (col "x")) eq_refl eq_refl eq_refl).
  - exact (proj1 (proj2 (proj2 (proj2 (proj2 not_normalization)))) (col "x") eq_refl sampleDialect emptyState).
Defined.

(** ** C7: what [negate] keeps *)

(** C7 (counterexample).  The logical NOT is negatable, but its [negate]
    returns the wrapped child, here a column, which is not an operator with
    swapped kind and symbol; and the negation of a binary operator with
    [SuppressSpace] set has it cleared, since [BinaryOperator.negate] copies
    every field but that last one. *)
Lemma negate_fields_counterexample :
  (negatable (Not (col "a")) = true /\
   negate (Not (col "a")) = col "a" /\
   is_operator (negate (Not (col "a"))) = false) /\
  (let b := {| b_Type := OpEq; b_Symbol := "="; b_NegatedType := OpNotEq; b_NegatedSymbol := "<>";
               b_CustomPrecedence := 0; b_CustomAssociativity := AssocUnset; b_SuppressSpace := true |} in
   exists b', negate (EBinary b (col "a") (col "b")) = EBinary b' (col "a") (col "b") /\
              b_SuppressSpace b = true /\ b_SuppressSpace b' = false).
Proof. split; [repeat split | cbn; eexists; repeat split]. Qed.

(** C7 (amended).  For a unary operator other than the logical NOT, and for
    every binary and ternary operator, [negate] swaps the kind and symbol(s)
    with the stored negated counterpart and keeps the children, the custom
    precedence and the custom associativity; the logical NOT's [negate]
    returns its wrapped child. *)
Theorem negate_fields :
  (forall u x, isNot u = false ->
     exists u', negate (EUnary u x) = EUnary u' x /\
       u_Type u' = u_NegatedType u /\ u_Symbol u' = u_NegatedSymbol u /\
       u_NegatedType u' = u_Type u /\ u_NegatedSymbol u' = u_Symbol u /\
       u_CustomPrecedence u' = u_CustomPrecedence u /\
       u_CustomAssociativity u' = u_CustomAssociativity u) /\
  (forall u x, isNot u = true -> negate (EUnary u x) = x) /\
  (forall b l r,
     exists b', negate (EBinary b l r) = EBinary b' l r /\
       b_Type b' = b_NegatedType b /\ b_Symbol b' = b_NegatedSymbol b /\
       b_NegatedType b' = b_Type b /\ b_NegatedSymbol b' = b_Symbol b /\
       b_CustomPrecedence b' = b_CustomPrecedence b /\
       b_CustomAssociativity b' = b_CustomAssociativity b) /\
  (forall t x1 x2 x3,
     exists t', negate (ETernary t x1 x2 x3) = ETernary t' x1 x2 x3 /\
       t_Type t' = t_NegatedType t /\ t_Symbol1 t' = t_NegatedSymbol1 t /\
       t_Symbol2 t' = t_NegatedSymbol2 t /\
       t_NegatedType t' = t_Type t /\ t_NegatedSymbol1 t' = t_Symbol1 t /\
       t_NegatedSymbol2 t' = t_Symbol2 t /\
       t_CustomPrecedence t' = t_CustomPrecedence t /\
       t_CustomAssociativity t' = t_CustomAssociativity t).
Proof.
  split; [|split; [|split]].
  - intros u x Hu. exists (negateUnary u). cbn [negate]. rewrite Hu. repeat split.
  - intros u x Hu. cbn [negate]. now rewrite Hu.
  - intros b l r. exists (negateBinary b). repeat split.
  - intros t x1 x2 x3. exists (negateTernary t). repeat split.
Qed.

Lemma negate_fields_witness :
  isNot (unaryOp OpIsNull "IS NULL" OpIsNotNull "IS NOT NULL") = false /\
  exists u', negate (IsNull (col "a")) = EUnary u' (col "a") /\
    u_Type u' = OpIsNotNull /\ u_Symbol u' = "IS NOT NULL" /\
    u_NegatedType u' = OpIsNull /\ u_NegatedSymbol u' = "IS NULL" /\
    u_CustomPrecedence u' = 0%N /\ u_CustomAssociativity u' = AssocUnset.
Proof.
  split; [reflexivity|].
  exact (proj1 negate_fields (unaryOp OpIsNull "IS NULL" OpIsNotNull "IS NOT NULL") (col "a") eq_refl).
Defined.

(** The binary [negate] does not carry [SuppressSpace] over, unlike every
    other field of the struct: a NOT over a suppressed-space comparison
    renders with spaces. *)
Example negate_drops_SuppressSpace :
  let b := {| b_Type := OpEq; b_Symbol := "="; b_NegatedType := OpNotEq; b_NegatedSymbol := "<>";
              b_CustomPrecedence := 0; b_CustomAssociativity := AssocUnset; b_SuppressSpace := true |} in
  render sampleDialect (EBinary b (col "a") (col "b")) = inr "a=b" /\
  render sampleDialect (transform (Not (EBinary b (col "a") (col "b")))) = inr "a <> b".
Proof. split; reflexivity. Qed.

(** ** C8: idempotence of the rewrite pass *)

(** Canonical trees: no NOT sits on a negatable operator. *)
Fixpoint canonical (e : Expr) : bool :=
  match e with
  | EUnary u x => (if isNot u then negb (is_operator x && negatable x) else true) && canonical x
  | EBinary _ l r => canonical l && canonical r
  | ETernary _ x1 x2 x3 => canonical x1 && canonical x2 && canonical x3
  | ESQLType _ | EColumn _ _ | EPlaceholder _ => true
  | ECast x _ => canonical x
  | EFunc _ args _ => forallb canonical args
  | ETuple xs => forallb canonical xs
  | ECase cs rs el =>
      forallb canonical cs && forallb canonical rs &&
      match el with None => true | Some x => canonical x end
  end.

Lemma map_id_Forall (f : Expr -> Expr) (l : list Expr) :
  Forall (fun x => canonical x = true -> f x = x) l -> forallb canonical l = true -> map f l = l.
Proof.
  induction 1 as [|x l Hx Hl IH]; simpl; [reflexivity|].
  intros H. apply andb_true_iff in H as [H1 H2]. now rewrite Hx, IH.
Qed.

Lemma transform_canonical_id (e : Expr) : canonical e = true -> transform e = e.
Proof.
  induction e using Expr_ind'; intros Hc; simpl canonical in Hc.
  - apply andb_true_iff in Hc as [H1 H2].
    destruct (isNot u) eqn:Hu.
    + rewrite transform_not_plain by (auto; now apply negb_true_iff). now rewrite IHe.
    + rewrite transform_unary_plain by exact Hu. now rewrite IHe.
  - apply andb_true_iff in Hc as [H1 H2]. cbn [transform]. now rewrite IHe1, IHe2.
  - apply andb_true_iff in Hc as [H12 H3]. apply andb_true_iff in H12 as [H1 H2].
    cbn [transform]. now rewrite IHe1, IHe2, IHe3.
  - reflexivity.
  - reflexivity.
  - reflexivity.
  - cbn [transform]. now rewrite IHe.
  - cbn [transform]. now rewrite map_id_Forall.
  - cbn [transform]. now rewrite map_id_Forall.
  - apply andb_true_iff in Hc as [H12 H3]. apply andb_true_iff in H12 as [H1' H2'].
    cbn [transform]. rewrite !map_id_Forall by assumption.
    destruct el as [x|]; [|reflexivity]. simpl. now rewrite H1.
Qed.

(** A node that is not a NOT keeps its head through the rewrite. *)
Lemma transform_head (x : Expr) :
  is_operator x && negatable x = false ->
  is_operator (transform x) && negatable (transform x) = false.
Proof.
  destruct x as [w y|b l r|t x1 x2 x3| | | | | | |]; try reflexivity; intros H.
  - destruct (isNot w) eqn:Hw.
    + simpl in H. rewrite Hw in H. discriminate.
    + rewrite transform_unary_plain by exact Hw. exact H.
  - exact H.
  - exact H.
Qed.

Lemma forallb_map_Forall (P : Expr -> Prop) (l : list Expr) :
  Forall P l -> (forall x, P x -> canonical (transform x) = true) ->
  forallb canonical (map transform l) = true.
Proof. induction 1; intros HP; simpl; [reflexivity|]. apply andb_true_iff; auto. Qed.

(** The rewrite of a node that is not an operator is canonical, also under a NOT. *)
Ltac canonical_leaf :=
  repeat match goal with H : _ /\ _ |- _ => destruct H end;
  match goal with
  | |- canonical (transform ?e) = true /\ _ =>
      assert (C : canonical (transform e) = true);
      [ cbn [transform canonical];
        repeat match goal with
        | H : Forall _ _ |- _ =>
            rewrite (forallb_map_Forall _ _ H (fun x Hx => proj1 Hx)); clear H
        end;
        repeat match goal with
        | |- context [option_map transform ?el] =>
            destruct el as [?x|] eqn:?; cbn [option_map]
        end;
        try reflexivity; try assumption;
        match goal with
        | H : forall x, Some ?y = Some x -> _ |- _ => exact (proj1 (H y eq_refl))
        end
      | split; [exact C |]; intros u;
        destruct (isNot u) eqn:Hu;
        [ rewrite transform_not_plain by (exact Hu || reflexivity)
        | rewrite transform_unary_plain by exact Hu ];
        cbn [canonical]; rewrite Hu; cbn [is_operator negb andb transform]; exact C ]
  end.

Lemma transform_canonical (e : Expr) :
  canonical (transform e) = true /\
  forall u, canonical (transform (EUnary u e)) = true.
Proof.
  induction e as [u e IHe|b l r IHe1 IHe2|t x1 x2 x3 IHe1 IHe2 IHe3| | | |x ty IHe|n args o Hargs|xs Hxs|cs rs el Hcs Hrs Hel] using Expr_ind'.
  - (* e = EUnary u x *)
    destruct IHe as [IH1 IH2]. split; [apply IH2|].
    intros u'. destruct (isNot u') eqn:Hu'.
    2:{ rewrite transform_unary_plain by exact Hu'. cbn [canonical]. rewrite Hu'. exact (IH2 u). }
    destruct (is_operator (EUnary u e) && negatable (EUnary u e)) eqn:Hn.
    + apply andb_true_iff in Hn as [Ho Hn].
      rewrite transform_not_negatable by assumption. cbn [negate].
      destruct (isNot u); [exact IH1 | exact (IH2 _)].
    + rewrite transform_not_plain by assumption. cbn [canonical]. rewrite Hu'.
      rewrite transform_head by exact Hn. exact (IH2 u).
  - destruct IHe1 as [IH1 _], IHe2 as [IH2 _].
    assert (C : canonical (transform (EBinary b l r)) = true)
      by (cbn [transform canonical]; now rewrite IH1, IH2).
    split; [exact C|]. intros u.
    destruct (isNot u) eqn:Hu.
    2:{ rewrite transform_unary_plain by exact Hu. cbn [canonical]. rewrite Hu. exact C. }
    destruct (is_operator (EBinary b l r) && negatable (EBinary b l r)) eqn:Hn.
    + apply andb_true_iff in Hn as [Ho Hn].
      rewrite transform_not_negatable by assumption. cbn [negate transform canonical].
      now rewrite IH1, IH2.
    + rewrite transform_not_plain by assumption. cbn [canonical]. rewrite Hu.
      rewrite transform_head by exact Hn. exact C.
  - destruct IHe1 as [IH1 _], IHe2 as [IH2 _], IHe3 as [IH3 _].
    assert (C : canonical (transform (ETernary t x1 x2 x3)) = true)
      by (cbn [transform canonical]; now rewrite IH1, IH2, IH3).
    split; [exact C|]. intros u.
    destruct (isNot u) eqn:Hu.
    2:{ rewrite transform_unary_plain by exact Hu. cbn [canonical]. rewrite Hu. exact C. }
    destruct (is_operator (ETernary t x1 x2 x3) && negatable (ETernary t x1 x2 x3)) eqn:Hn.
    + apply andb_true_iff in Hn as [Ho Hn].
      rewrite transform_not_negatable by assumption. cbn [negate transform canonical].
      now rewrite IH1, IH2, IH3.
    + rewrite transform_not_plain by assumption. cbn [canonical]. rewrite Hu.
      rewrite transform_head by exact Hn. exact C.
  (* the remaining nodes are not operators *)
  - canonical_leaf.
  - canonical_leaf.
  - canonical_leaf.
  - canonical_leaf.
  - canonical_leaf.
  - canonical_leaf.
  - canonical_leaf.
Qed.

(** C8: the rewrite pass is idempotent: rewriting an already rewritten tree
    gives back the same tree, [transform (transform e) = transform e]. *)
Theorem transform_idempotent (e : Expr) : transform (transform e) = transform e.
Proof. apply transform_canonical_id, transform_canonical. Qed.

(** ** Rendering only appends to the output buffer *)

Definition prefixes (s s' : State) : Prop := exists t, buf s' = buf s ++ t.

(** A computation that only ever appends to the buffer. *)
Definition Appends {A} (m : M A) : Prop := forall s a s', m s = inr (a, s') -> prefixes s s'.

Lemma prefixes_refl s : prefixes s s.
Proof. exists "". now rewrite append_empty_r. Qed.

Lemma prefixes_trans s1 s2 s3 : prefixes s1 s2 -> prefixes s2 s3 -> prefixes s1 s3.
Proof. intros [t1 H1] [t2 H2]. exists (t1 ++ t2). now rewrite H2, H1, append_assoc_str. Qed.

Lemma Appends_ret {A} (a : A) : Appends (ret a).
Proof. intros s b s' [=]; subst; apply prefixes_refl. Qed.

Lemma Appends_fail {A} (e : Error) : Appends (@fail A e).
Proof. intros s b s' [=]. Qed.

Lemma Appends_bind {A B} (m : M A) (k : A -> M B) :
  Appends m -> (forall a, Appends (k a)) -> Appends (bind m k).
Proof.
  intros Hm Hk s b s'. unfold bind.
  destruct (m s) as [e|[a s1]] eqn:E; [discriminate|].
  intros H. eapply prefixes_trans; [eapply Hm; exact E | eapply Hk; exact H].
Qed.

Lemma Appends_if {A} (b : bool) (m1 m2 : M A) : Appends m1 -> Appends m2 -> Appends (if b then m1 else m2).
Proof. now destruct b. Qed.

Lemma Appends_WriteVerbatim t : Appends (WriteVerbatim t).
Proof. intros s a s' [=]; subst. now exists t. Qed.

Lemma Appends_insertPlaceholder p : Appends (insertPlaceholder p).
Proof.
  intros s a s'. unfold insertPlaceholder.
  destruct (indexOf p (bindings s)); intros [=]; subst; [apply prefixes_refl | exists ""; simpl; now rewrite append_empty_r].
Qed.

Lemma Appends_resolveOperatorPrecedence c e : Appends (resolveOperatorPrecedence c e).
Proof.
  destruct (resolveOperatorPrecedence_cases c e) as [[p [_ R]]|R]; rewrite R;
    [apply Appends_ret | apply Appends_fail].
Qed.

Lemma Appends_resolveOperatorAssociativity c e : Appends (resolveOperatorAssociativity c e).
Proof.
  destruct (resolveOperatorAssociativity_cases c e) as [[a [_ R]]|R]; rewrite R;
    [apply Appends_ret | apply Appends_fail].
Qed.

Lemma Appends_stringifyParen m : Appends m -> Appends (stringifyParen m).
Proof.
  intros Hm. unfold stringifyParen.
  repeat (apply Appends_bind; intros; try apply Appends_WriteVerbatim); auto; apply Appends_WriteVerbatim.
Qed.

Create HintDb appends.
#[local] Hint Resolve Appends_ret Appends_fail Appends_bind Appends_if Appends_WriteVerbatim
  Appends_insertPlaceholder Appends_resolveOperatorPrecedence Appends_resolveOperatorAssociativity
  Appends_stringifyParen : appends.

Lemma Appends_stringify (c : Dialect) (e : Expr) : Appends (stringify c e).
Proof.
  induction e using Expr_ind'; cbn [stringify]; unfold WriteIdentifier, unaryWrite.
  - repeat (apply Appends_bind; intros) || apply Appends_if; eauto 6 with appends.
  - repeat (apply Appends_bind; intros) || apply Appends_if; eauto 6 with appends.
  - repeat (apply Appends_bind; intros) || apply Appends_if; eauto 6 with appends.
  - auto with appends.
  - repeat (apply Appends_bind; intros) || apply Appends_if; eauto with appends.
  - repeat (apply Appends_bind; intros); eauto with appends.
  - repeat (apply Appends_bind; intros); eauto with appends.
  - apply Appends_bind; [auto with appends | intros _].
    destruct args as [|a0 rest]; [auto with appends|].
    inversion H as [|? ? Ha0 Hrest]; subst; clear H.
    apply Appends_bind; [auto with appends | intros _].
    apply Appends_bind; [exact Ha0 | intros _].
    apply Appends_bind; [| intros _; auto with appends].
    induction Hrest as [|a l Ha Hl IH]; cbn; [auto with appends|].
    apply Appends_bind; [auto with appends | intros _]. apply Appends_bind; [exact Ha | intros _]. exact IH.
  - apply Appends_bind; [auto with appends | intros _].
    apply Appends_bind; [| intros _; auto with appends].
    destruct xs as [|x0 rest]; [auto with appends|].
    inversion H as [|? ? Hx0 Hrest]; subst; clear H.
    apply Appends_bind; [exact Hx0 | intros _].
    induction Hrest as [|a l Ha Hl IH]; cbn; [auto with appends|].
    apply Appends_bind; [auto with appends | intros _]. apply Appends_bind; [exact Ha | intros _]. exact IH.
  - apply Appends_bind; [auto with appends | intros _].
    apply Appends_bind.
    + assert (Hm : Forall Appends (map (stringify c) rs)) by (apply Forall_map; exact H0).
      clear H0. generalize (map (stringify c) rs) Hm. clear Hm.
      induction H as [|cnd cs' Hc Hcs IH]; intros rs' Hm; cbn; [auto with appends|].
      apply Appends_bind; [auto with appends | intros _]. apply Appends_bind; [exact Hc | intros _].
      apply Appends_bind; [auto with appends | intros _].
      destruct Hm as [|r rs'' Hr Hrs]; [auto with appends|].
      apply Appends_bind; [exact Hr | intros _]. apply IH; exact Hrs.
    + intros _. apply Appends_bind; [| intros _; auto with appends].
      destruct el as [x|]; [|auto with appends].
      apply Appends_bind; [auto with appends | intros _]. now apply H1.
Qed.

#[local] Hint Resolve Appends_stringify : appends.

Lemma Appends_stringifyCommaSeparated (ms : list (M unit)) :
  Forall Appends ms -> Appends (stringifyCommaSeparated ms).
Proof.
  intros H. destruct H as [|m0 rest H0 Hrest]; cbn; [auto with appends|].
  apply Appends_bind; [exact H0 | intros _].
  induction Hrest as [|m l Hm Hl IH]; cbn; [auto with appends|].
  apply Appends_bind; [auto with appends | intros _]. apply Appends_bind; [exact Hm | intros _]. exact IH.
Qed.

Lemma Appends_optClause {A} (o : option A) (f : A -> M unit) :
  (forall a, Appends (f a)) -> Appends (optClause o f).
Proof. intros H. destruct o; cbn; auto with appends. Qed.

Lemma Appends_stringifyOrderbyItem c o : Appends (stringifyOrderbyItem c o).
Proof.
  unfold stringifyOrderbyItem.
  repeat (apply Appends_bind; intros) || apply Appends_if; auto with appends.
Qed.

Lemma Appends_stringifyLabeledColumn c l : Appends (stringifyLabeledColumn c l).
Proof. unfold stringifyLabeledColumn, WriteIdentifier. repeat (apply Appends_bind; intros); auto with appends. Qed.

Lemma Appends_stringifyLabeledTable c l : Appends (stringifyLabeledTable c l).
Proof.
  unfold stringifyLabeledTable, WriteIdentifier.
  repeat (apply Appends_bind; intros) || apply Appends_if; auto with appends.
Qed.

#[local] Hint Resolve Appends_stringifyCommaSeparated Appends_optClause Appends_stringifyOrderbyItem
  Appends_stringifyLabeledColumn Appends_stringifyLabeledTable : appends.

Lemma Appends_Forall_map {A} (f : A -> M unit) (l : list A) :
  (forall a, Appends (f a)) -> Forall Appends (map f l).
Proof. intros H. induction l; constructor; auto. Qed.

#[local] Hint Resolve Appends_Forall_map : appends.

Lemma Appends_stringifySelectStmt (c : Dialect) (s : SelectStmt) : Appends (stringifySelectStmt c s)
with Appends_stringifyFromClauseItem (c : Dialect) (f : FromClauseItem) : Appends (stringifyFromClauseItem c f)
with Appends_stringifyLabeledSelectStmt (c : Dialect) (l : LabeledSelectStmt) :
  Appends (stringifyLabeledSelectStmt c l)
with Appends_stringifyJoinClause (c : Dialect) (j : JoinClause) : Appends (stringifyJoinClause c j).
Proof.
  - destruct s as [cols from wh gb hv ob lim off]. cbn [stringifySelectStmt].
    apply Appends_bind; [auto with appends | intros _].
    apply Appends_bind.
    { destruct cols as [|c0 rest]; [auto with appends|].
      apply Appends_bind; [auto with appends | intros _].
      induction rest as [|se rest IH]; cbn; [auto with appends|].
      apply Appends_bind; [auto with appends | intros _].
      apply Appends_bind; [auto with appends | intros _]. exact IH. }
    intros _. apply Appends_bind.
    { destruct from as [f|]; [|auto with appends].
      apply Appends_bind; [auto with appends | intros _].
      apply Appends_bind; [auto with appends | intros _]. apply Appends_stringifyFromClauseItem. }
    intros _. repeat (apply Appends_bind; [apply Appends_optClause; intros; auto with appends | intros _]).
    apply Appends_optClause; intros; auto with appends.
  - destruct f as [[t|] [q|] [j|]]; cbn [stringifyFromClauseItem];
      first [ apply Appends_stringifyLabeledTable | apply Appends_stringifyLabeledSelectStmt
            | apply Appends_stringifyJoinClause | apply Appends_fail ].
  - destruct l as [s' lbl]. cbn [stringifyLabeledSelectStmt]. unfold WriteIdentifier.
    apply Appends_bind; [apply Appends_WriteVerbatim | intros _].
    apply Appends_bind; [apply Appends_stringifySelectStmt | intros _].
    apply Appends_bind; [apply Appends_WriteVerbatim | intros _]. apply Appends_WriteVerbatim.
  - destruct j as [jt l r on]. cbn [stringifyJoinClause].
    apply Appends_bind; [apply Appends_stringifyFromClauseItem | intros _].
    apply Appends_bind; [apply Appends_WriteVerbatim | intros _].
    apply Appends_bind; [apply Appends_stringifyFromClauseItem | intros _].
    apply Appends_bind; [apply Appends_WriteVerbatim | intros _]. apply Appends_stringify.
Qed.

(** A column whose rendering writes the fixed text [t] and binds nothing. *)
Definition ColumnText (c : Dialect) (lc : LabeledColumn) (t : string) : Prop :=
  forall s, stringifyLabeledColumn c lc s = inr (tt, {| buf := buf s ++ t; bindings := bindings s |}).

Lemma concat_comma_cons (t0 : string) (ts : list string) :
  String.concat "," (t0 :: ts) = t0 ++ fold_right (fun t acc => "," ++ t ++ acc) "" ts.
Proof.
  revert t0; induction ts as [|t1 ts IH]; intros t0.
  - simpl. now rewrite append_empty_r.
  - change (String.concat "," (t0 :: t1 :: ts)) with (t0 ++ "," ++ String.concat "," (t1 :: ts)).
    rewrite IH. reflexivity.
Qed.

Lemma columns_fold (c : Dialect) (rest : list LabeledColumn) (ts : list string) :
  Forall2 (ColumnText c) rest ts ->
  forall s, fold_right (fun se acc => WriteVerbatim "," ;; stringifyLabeledColumn c se ;; acc) (ret tt) rest s =
            inr (tt, {| buf := buf s ++ fold_right (fun t acc => "," ++ t ++ acc) "" ts;
                        bindings := bindings s |}).
Proof.
  induction 1 as [|lc t rest ts Hlc Hrest IH]; intros s; cbn [fold_right].
  - unfold ret. rewrite append_empty_r. now destruct s.
  - unfold bind at 1. cbn [WriteVerbatim buf bindings].
    unfold bind at 1. rewrite Hlc. cbn [buf bindings]. rewrite IH. cbn [buf bindings].
    now rewrite !append_assoc_str.
Qed.

#[local] Hint Resolve Appends_stringifyFromClauseItem : appends.

Lemma bind_inr {A B} (m : M A) (k : A -> M B) (s s1 : State) (a : A) :
  m s = inr (a, s1) -> bind m k s = k a s1.
Proof. intros E. unfold bind. now rewrite E. Qed.

Lemma columns_part (c : Dialect) (c0 : LabeledColumn) (rest : list LabeledColumn) (t0 : string) (ts : list string) :
  ColumnText c c0 t0 -> Forall2 (ColumnText c) rest ts ->
  forall s, (stringifyLabeledColumn c c0 ;;
             fold_right (fun se acc => WriteVerbatim "," ;; stringifyLabeledColumn c se ;; acc) (ret tt) rest) s =
            inr (tt, {| buf := buf s ++ String.concat "," (t0 :: ts); bindings := bindings s |}).
Proof.
  intros H0 Hrest s. unfold bind at 1. rewrite H0. cbn [buf bindings].
  rewrite (columns_fold c rest ts Hrest). cbn [buf bindings].
  now rewrite concat_comma_cons, !append_assoc_str.
Qed.

(** C9: rendering a SELECT with no column fails at the access to the first
    column (the Go slice index panics, modelled as [ErrIndexOutOfRange])
    whatever the other clauses are; with columns [c0 :: rest] whose
    renderings are the texts [t0 :: ts], a successful rendering starts with
    ["SELECT "] followed by the column texts joined by a bare [","], and
    with no further clause that is the whole output. *)
Theorem select_columns (c : Dialect) :
  (forall from wh gb hv ob lim off s,
     stringifySelectStmt c (MkSelectStmt [] from wh gb hv ob lim off) s = inl ErrIndexOutOfRange) /\
  (forall c0 rest t0 ts from wh gb hv ob lim off s a s',
     ColumnText c c0 t0 -> Forall2 (ColumnText c) rest ts ->
     stringifySelectStmt c (MkSelectStmt (c0 :: rest) from wh gb hv ob lim off) s = inr (a, s') ->
     exists u, buf s' = buf s ++ "SELECT " ++ String.concat "," (t0 :: ts) ++ u) /\
  (forall c0 rest t0 ts s,
     ColumnText c c0 t0 -> Forall2 (ColumnText c) rest ts ->
     stringifySelectStmt c (MkSelectStmt (c0 :: rest) None None None None None None None) s =
     inr (tt, {| buf := buf s ++ "SELECT " ++ String.concat "," (t0 :: ts); bindings := bindings s |})).
Proof.
  split; [|split].
  - intros. reflexivity.
  - intros c0 rest t0 ts from wh gb hv ob lim off s a s' H0 Hrest E.
    cbn [stringifySelectStmt] in E. unfold bind at 1 in E. cbn [WriteVerbatim] in E.
    revert E.
    match goal with
    | |- bind ?m ?k ?s1 = _ -> _ =>
        assert (HA : Appends (k tt));
        [| rewrite (bind_inr m k s1 _ _ (columns_part c c0 rest t0 ts H0 Hrest s1))]
    end.
    + cbv beta. apply Appends_bind; [destruct from; auto with appends | intros _].
      repeat (apply Appends_bind; [auto with appends | intros _]). auto with appends.
    + intros E. destruct (HA _ _ _ E) as [u Hu]. exists u.
      rewrite Hu. cbn [buf]. now rewrite !append_assoc_str.
  - intros c0 rest t0 ts s H0 Hrest.
    cbn [stringifySelectStmt]. unfold bind at 1. cbn [WriteVerbatim].
    rewrite (bind_inr _ _ _ _ _ (columns_part c c0 rest t0 ts H0 Hrest _)).
    cbn [buf bindings]. rewrite append_assoc_str. reflexivity.
Qed.

Definition sampleColumn (n l : string) : LabeledColumn := {| lc_Expr := col n; lc_Label := l |}.

Lemma sampleColumn_text (n l : string) : ColumnText sampleDialect (sampleColumn n l) (n ++ " " ++ l).
Proof.
  intros s. unfold stringifyLabeledColumn, bind, ret, WriteIdentifier, WriteVerbatim. cbn [stringify col].
  unfold bind, ret, WriteIdentifier, WriteVerbatim; cbn [nonEmpty buf bindings quoteIdentifier sampleDialect lc_Expr lc_Label sampleColumn].
  change (stringify sampleDialect (col n) s)
    with (@inr Error (unit * State) (tt, {| buf := buf s ++ n; bindings := bindings s |})).
  cbn [buf bindings]. now rewrite !append_assoc_str.
Qed.

Lemma select_columns_witness :
  ColumnText sampleDialect (sampleColumn "a" "x") "a x" /\
  Forall2 (ColumnText sampleDialect) [sampleColumn "b" "y"; sampleColumn "c" "z"] ["b y"; "c z"] /\
  stringifySelectStmt sampleDialect
    (MkSelectStmt [sampleColumn "a" "x"; sampleColumn "b" "y"; sampleColumn "c" "z"]
       None None None None None None None) emptyState =
  inr (tt, {| buf := "SELECT a x,b y,c z"; bindings := [] |}).
Proof.
  assert (H0 : ColumnText sampleDialect (sampleColumn "a" "x") "a x") by exact (sampleColumn_text "a" "x").
  assert (Hr : Forall2 (ColumnText sampleDialect) [sampleColumn "b" "y"; sampleColumn "c" "z"] ["b y"; "c z"])
    by (constructor; [exact (sampleColumn_text "b" "y") | constructor; [exact (sampleColumn_text "c" "z") | constructor]]).
  split; [exact H0 | split; [exact Hr |]].
  exact (proj2 (proj2 (select_columns sampleDialect)) _ _ "a x" ["b y"; "c z"] emptyState H0 Hr).
Defined.

(** The result of running [m] and then appending the text [t]. *)
Definition thenText (m : M unit) (t : string) : M unit :=
  fun s => match m s with
           | inl err => inl err
           | inr (_, s1) => inr (tt, {| buf := buf s1 ++ t; bindings := bindings s1 |})
           end.

(** C10: an order-by item writes a NULLS keyword only for a descending item
    marked nulls-last ([" NULLS LAST"]) and an ascending item marked
    nulls-first ([" NULLS FIRST"]); an ascending item marked nulls-last and a
    descending item marked nulls-first write no NULLS clause. *)
Theorem orderby_nulls (c : Dialect) (e : Expr) (s : State) :
  stringifyOrderbyItem c (NullsLast (Desc e)) s = thenText (stringify c e) " DESC NULLS LAST" s /\
  stringifyOrderbyItem c (NullsFirst (Asc e)) s = thenText (stringify c e) " NULLS FIRST" s /\
  stringifyOrderbyItem c (NullsLast (Asc e)) s = thenText (stringify c e) "" s /\
  stringifyOrderbyItem c (NullsFirst (Desc e)) s = thenText (stringify c e) " DESC" s.
Proof.
  unfold stringifyOrderbyItem, thenText, bind, ret; cbn -[stringify].
  destruct (stringify c e s) as [err|[[] s1]]; [repeat split |].
  cbn. rewrite !append_assoc_str, append_empty_r. destruct s1. repeat split.
Qed.

Example orderby_nulls_render :
  stringifyOrderbyItem sampleDialect (NullsLast (Desc (col "a"))) emptyState
    = inr (tt, {| buf := "a DESC NULLS LAST"; bindings := [] |}) /\
  stringifyOrderbyItem sampleDialect (NullsFirst (Asc (col "a"))) emptyState
    = inr (tt, {| buf := "a NULLS FIRST"; bindings := [] |}) /\
  stringifyOrderbyItem sampleDialect (NullsLast (Asc (col "a"))) emptyState
    = inr (tt, {| buf := "a"; bindings := [] |}) /\
  stringifyOrderbyItem sampleDialect (NullsFirst (Desc (col "a"))) emptyState
    = inr (tt, {| buf := "a DESC"; bindings := [] |}).
Proof. repeat split. Qed.

(** ** The remaining operator builders of [operator.go] *)

Definition IsTrue (e : Expr) : Expr := EUnary (unaryOp OpIsTrue "IS TRUE" OpIsNotTrue "IS NOT TRUE") e.
Definition IsNotTrue (e : Expr) : Expr := EUnary (unaryOp OpIsNotTrue "IS NOT TRUE" OpIsTrue "IS TRUE") e.
Definition IsFalse (e : Expr) : Expr := EUnary (unaryOp OpIsFalse "IS FALSE" OpIsNotFalse "IS NOT FALSE") e.
Definition IsNotFalse (e : Expr) : Expr := EUnary (unaryOp OpIsNotFalse "IS NOT FALSE" OpIsFalse "IS FALSE") e.
Definition Add (l r : Expr) : Expr := EBinary (binaryOp OpAdd "+" OpUnset "") l r.
Definition Mul (l r : Expr) : Expr := EBinary (binaryOp OpMul "*" OpUnset "") l r.
Definition Div (l r : Expr) : Expr := EBinary (binaryOp OpDiv "/" OpUnset "") l r.
Definition Mod (l r : Expr) : Expr := EBinary (binaryOp OpMod "%" OpUnset "") l r.
Definition Lt (l r : Expr) : Expr := EBinary (binaryOp OpLt "<" OpUnset "") l r.
Definition Lte (l r : Expr) : Expr := EBinary (binaryOp OpLte "<=" OpUnset "") l r.
Definition Gt (l r : Expr) : Expr := EBinary (binaryOp OpGt ">" OpUnset "") l r.
Definition Gte (l r : Expr) : Expr := EBinary (binaryOp OpGte ">=" OpUnset "") l r.
Definition NotEq (l r : Expr) : Expr := EBinary (binaryOp OpNotEq "<>" OpEq "=") l r.
Definition In (l r : Expr) : Expr := EBinary (binaryOp OpIn "IN" OpNotIn "NOT IN") l r.
Definition NotIn (l r : Expr) : Expr := EBinary (binaryOp OpNotIn "NOT IN" OpIn "IN") l r.
Definition Like (l r : Expr) : Expr := EBinary (binaryOp OpLike "LIKE" OpNotLike "NOT LIKE") l r.
Definition NotLike (l r : Expr) : Expr := EBinary (binaryOp OpNotLike "NOT LIKE" OpLike "LIKE") l r.
Definition ILike (l r : Expr) : Expr := EBinary (binaryOp OpILike "ILIKE" OpNotILike "NOT ILIKE") l r.
Definition NotILike (l r : Expr) : Expr := EBinary (binaryOp OpNotILike "NOT ILIKE" OpILike "ILIKE") l r.
Definition NotBetween (x1 x2 x3 : Expr) : Expr :=
  ETernary {| t_Type := OpNotBetween; t_Symbol1 := "NOT BETWEEN"; t_Symbol2 := "AND";
              t_NegatedType := OpBetween; t_NegatedSymbol1 := "BETWEEN";
              t_NegatedSymbol2 := "AND"; t_CustomPrecedence := 0;
              t_CustomAssociativity := AssocUnset |} x1 x2 x3.

(** X1.  The negatable builders come in pairs: each one's [negate] is its
    partner applied to the same children, so a NOT over one of them is
    rewritten into the partner over the rewritten children. *)
Theorem builder_negation_pairs (x y z : Expr) :
  negate (IsNull x) = IsNotNull x /\ negate (IsNotNull x) = IsNull x /\
  negate (IsTrue x) = IsNotTrue x /\ negate (IsNotTrue x) = IsTrue x /\
  negate (IsFalse x) = IsNotFalse x /\ negate (IsNotFalse x) = IsFalse x /\
  negate (Eq x y) = NotEq x y /\ negate (NotEq x y) = Eq x y /\
  negate (In x y) = NotIn x y /\ negate (NotIn x y) = In x y /\
  negate (Like x y) = NotLike x y /\ negate (NotLike x y) = Like x y /\
  negate (ILike x y) = NotILike x y /\ negate (NotILike x y) = ILike x y /\
  negate (Between x y z) = NotBetween x y z /\ negate (NotBetween x y z) = Between x y z /\
  transform (Not (IsNull x)) = IsNotNull (transform x) /\
  transform (Not (IsNotNull x)) = IsNull (transform x) /\
  transform (Not (IsTrue x)) = IsNotTrue (transform x) /\
  transform (Not (IsNotTrue x)) = IsTrue (transform x) /\
  transform (Not (IsFalse x)) = IsNotFalse (transform x) /\
  transform (Not (IsNotFalse x)) = IsFalse (transform x) /\
  transform (Not (Eq x y)) = NotEq (transform x) (transform y) /\
  transform (Not (NotEq x y)) = Eq (transform x) (transform y) /\
  transform (Not (In x y)) = NotIn (transform x) (transform y) /\
  transform (Not (NotIn x y)) = In (transform x) (transform y) /\
  transform (Not (Like x y)) = NotLike (transform x) (transform y) /\
  transform (Not (NotLike x y)) = Like (transform x) (transform y) /\
  transform (Not (ILike x y)) = NotILike (transform x) (transform y) /\
  transform (Not (NotILike x y)) = ILike (transform x) (transform y) /\
  transform (Not (Between x y z)) = NotBetween (transform x) (transform y) (transform z) /\
  transform (Not (NotBetween x y z)) = Between (transform x) (transform y) (transform z).
Proof. repeat split. Qed.

(** X2.  The NOT, logic and arithmetic builders and the four ordering
    comparisons are not negatable, so a NOT over one of them is kept by the
    rewrite pass (the comparisons are not flipped). *)
Theorem builder_not_negatable (x y : Expr) :
  negatable (And x y) = false /\ negatable (Or x y) = false /\
  negatable (Add x y) = false /\ negatable (Sub x y) = false /\
  negatable (Mul x y) = false /\ negatable (Div x y) = false /\ negatable (Mod x y) = false /\
  negatable (Lt x y) = false /\ negatable (Lte x y) = false /\
  negatable (Gt x y) = false /\ negatable (Gte x y) = false /\
  transform (Not (And x y)) = Not (And (transform x) (transform y)) /\
  transform (Not (Or x y)) = Not (Or (transform x) (transform y)) /\
  transform (Not (Add x y)) = Not (Add (transform x) (transform y)) /\
  transform (Not (Sub x y)) = Not (Sub (transform x) (transform y)) /\
  transform (Not (Mul x y)) = Not (Mul (transform x) (transform y)) /\
  transform (Not (Div x y)) = Not (Div (transform x) (transform y)) /\
  transform (Not (Mod x y)) = Not (Mod (transform x) (transform y)) /\
  transform (Not (Lt x y)) = Not (Lt (transform x) (transform y)) /\
  transform (Not (Lte x y)) = Not (Lte (transform x) (transform y)) /\
  transform (Not (Gt x y)) = Not (Gt (transform x) (transform y)) /\
  transform (Not (Gte x y)) = Not (Gte (transform x) (transform y)).
Proof. repeat split. Qed.

(** X3.  Negating twice gives back the operator: always for a non-NOT unary
    and a ternary operator, and for a binary operator exactly when its
    [SuppressSpace] flag is unset (negation clears it). *)
Theorem negate_involutive :
  (forall u x, isNot u = false -> isNot (negateUnary u) = false ->
     negate (negate (EUnary u x)) = EUnary u x) /\
  (forall b l r, negate (negate (EBinary b l r)) = EBinary b l r <-> b_SuppressSpace b = false) /\
  (forall t x1 x2 x3, negate (negate (ETernary t x1 x2 x3)) = ETernary t x1 x2 x3).
Proof.
  split; [|split].
  - intros u x Hu Hn. cbn [negate]. rewrite Hu. cbn [negate]. rewrite Hn. now destruct u.
  - intros b l r. cbn [negate]. split.
    + intros H. injection H as H. rewrite <- H. reflexivity.
    + intros H. destruct b; cbn in *. now subst.
  - intros t x1 x2 x3. cbn [negate]. now destruct t.
Qed.

Lemma negate_involutive_witness :
  isNot (unaryOp OpIsNull "IS NULL" OpIsNotNull "IS NOT NULL") = false /\
  isNot (negateUnary (unaryOp OpIsNull "IS NULL" OpIsNotNull "IS NOT NULL")) = false /\
  negate (negate (IsNull (col "a"))) = IsNull (col "a").
Proof.
  split; [reflexivity | split; [reflexivity |]].
  exact (proj1 negate_involutive (unaryOp OpIsNull "IS NULL" OpIsNotNull "IS NOT NULL") (col "a")
           eq_refl eq_refl).
Defined.

(** ** Placeholder tuples ([generatePlaceholders], [makePlaceholderTuple], [PlaceholderTuple]) *)

(** The decimal digits of a [Decimal.uint], most significant first. *)
Fixpoint uintDigits (d : Decimal.uint) : string :=
  match d with
  | Decimal.Nil => ""
  | Decimal.D0 d => String "0"%char (uintDigits d)
  | Decimal.D1 d => String "1"%char (uintDigits d)
  | Decimal.D2 d => String "2"%char (uintDigits d)
  | Decimal.D3 d => String "3"%char (uintDigits d)
  | Decimal.D4 d => String "4"%char (uintDigits d)
  | Decimal.D5 d => String "5"%char (uintDigits d)
  | Decimal.D6 d => String "6"%char (uintDigits d)
  | Decimal.D7 d => String "7"%char (uintDigits d)
  | Decimal.D8 d => String "8"%char (uintDigits d)
  | Decimal.D9 d => String "9"%char (uintDigits d)
  end.

(** Go's [strconv.Itoa]: the decimal text of an [int], with a leading minus
    sign for a negative value. *)
Definition Itoa (z : Z) : string :=
  match z with
  | Z0 => "0"
  | Zpos p => uintDigits (N.to_uint (Npos p))
  | Zneg p => String "-"%char (uintDigits (N.to_uint (Npos p)))
  end.

(** [MakeTuple first rest...]. *)
Definition MakeTuple (first : Expr) (rest : list Expr) : Expr := ETuple (first :: rest).

(** As in Go, a [Placeholder] is its name; the error result carries no list. *)
Definition generatePlaceholders (prefix : string) (length : Z) : Error + list string :=
  if (length <=? 0)%Z then inl ErrZeroLength
  else inr (map (fun i => prefix ++ Itoa (Z.of_nat i + 1)) (seq 0 (Z.to_nat length))).

Definition makePlaceholderTuple (placeholders : list string) : Error + Expr :=
  match placeholders with
  | [] => inl ErrZeroLength
  | p0 :: rest => inr (MakeTuple (EPlaceholder p0) (map EPlaceholder rest))
  end.

Definition PlaceholderTuple (prefix : string) (length : Z) : Error + (list string * Expr) :=
  match generatePlaceholders prefix length with
  | inl err => inl err
  | inr placeholders =>
      match makePlaceholderTuple placeholders with
      | inl err => inl err
      | inr tuple => inr (placeholders, tuple)
      end
  end.

Lemma uintDigits_inj (a b : Decimal.uint) : uintDigits a = uintDigits b -> a = b.
Proof.
  revert b; induction a; intros b; destruct b; cbn; intros H; try discriminate;
    try reflexivity; injection H as H; f_equal; auto.
Qed.

Lemma uintDigits_no_minus (d : Decimal.uint) (t : string) : uintDigits d <> String "-"%char t.
Proof. destruct d; cbn; discriminate. Qed.

Lemma Itoa_inj (a b : Z) : Itoa a = Itoa b -> a = b.
Proof.
  assert (Hpos : forall p q, uintDigits (N.to_uint (Npos p)) = uintDigits (N.to_uint (Npos q)) -> p = q).
  { intros p q H. apply uintDigits_inj in H. apply (f_equal N.of_uint) in H.
    rewrite !DecimalN.Unsigned.of_to in H. now injection H. }
  assert (Hz : forall p, uintDigits (N.to_uint (Npos p)) <> "0").
  { intros p H. assert (E : N.to_uint (Npos p) = Decimal.D0 Decimal.Nil) by (apply uintDigits_inj; exact H).
    pose proof (DecimalN.Unsigned.of_to (Npos p)) as R. rewrite E in R. discriminate. }
  destruct a as [|p|p], b as [|q|q]; cbn; intros H; try reflexivity.
  - exfalso. now apply (Hz q).
  - discriminate.
  - exfalso. now apply (Hz p).
  - f_equal. now apply Hpos.
  - exfalso. now apply (uintDigits_no_minus _ _ H).
  - discriminate.
  - exfalso. now apply (uintDigits_no_minus _ _ (eq_sym H)).
  - injection H as H. f_equal. now apply Hpos.
Qed.

Lemma append_inj_l (p a b : string) : p ++ a = p ++ b -> a = b.
Proof. induction p; cbn; [auto | intros H; injection H; auto]. Qed.

Lemma NoDup_map_inj {A B} (f : A -> B) (l : list A) :
  (forall x y, f x = f y -> x = y) -> NoDup l -> NoDup (map f l).
Proof.
  intros Hf. induction 1 as [|x l Hx Hl IH]; cbn; constructor; auto.
  intros Hin. apply in_map_iff in Hin as [y [Hy Hyl]]. apply Hf in Hy. subst. contradiction.
Qed.

Lemma generated_names_NoDup (prefix : string) (k n : nat) :
  NoDup (map (fun i => prefix ++ Itoa (Z.of_nat i + 1)) (seq k n)).
Proof.
  apply NoDup_map_inj; [| apply seq_NoDup].
  intros i j H. apply append_inj_l, Itoa_inj in H. lia.
Qed.

Lemma indexOf_not_In (p : string) (l : list string) : ~ List.In p l -> indexOf p l = None.
Proof.
  induction l as [|y l IH]; cbn; intros H; [reflexivity|].
  destruct (String.eqb p y) eqn:E.
  - apply String.eqb_eq in E. subst. exfalso. auto.
  - rewrite IH by auto. reflexivity.
Qed.

(** The texts written for fresh placeholders [ps], bound from position [k] on. *)
Definition placeholderTexts (c : Dialect) (ps : list string) (k : nat) : list string :=
  map (fun '(p, i) => makePlaceholder c p (N.of_nat i)) (combine ps (seq k (length ps))).

(** A dialect with numbered placeholders [$1], [$2], ... *)
Definition pgDialect : Dialect := {|
  precedenceTable := samplePrecedence;
  associativityTable := sampleAssociativity;
  quoteIdentifier := fun n => n;
  makePlaceholder := fun _ pos => "$" ++ Itoa (Z.of_N pos) |}.

Lemma placeholders_go (c : Dialect) (ps : list string) :
  NoDup ps -> forall s, (forall p, List.In p ps -> ~ List.In p (bindings s)) ->
  (fix go (l : list Expr) : M unit :=
     match l with [] => ret tt | a :: l' => WriteVerbatim "," ;; stringify c a ;; go l' end)
    (map EPlaceholder ps) s =
  inr (tt, {| buf := buf s ++ fold_right (fun t acc => "," ++ t ++ acc) ""
                                  (placeholderTexts c ps (S (length (bindings s))));
              bindings := (bindings s ++ ps)%list |}).
Proof.
  induction 1 as [|p ps Hp Hps IH]; intros s Hfresh; cbn [map].
  - unfold ret. destruct s. cbn. now rewrite append_empty_r, app_nil_r.
  - unfold bind at 1. cbn [WriteVerbatim buf bindings].
    unfold bind at 1. rewrite stringify_placeholder. cbn [bindings buf].
    rewrite indexOf_not_In by (apply Hfresh; left; reflexivity).
    rewrite IH.
    + cbn [buf bindings]. unfold placeholderTexts. cbn [length seq combine map fold_right].
      rewrite length_app. cbn [length]. rewrite <- app_assoc, !append_assoc_str.
      replace (S (Datatypes.length (bindings s) + 1)) with (S (S (Datatypes.length (bindings s)))) by lia. reflexivity.
    + intros q Hq Hin. cbn [bindings] in Hin. apply in_app_or in Hin as [Hin|[Hin|[]]].
      * apply (Hfresh q); [right; exact Hq | exact Hin].
      * subst. contradiction.
Qed.

Lemma placeholder_tuple_text (c : Dialect) (ps : list string) (s : State) :
  ps <> [] -> NoDup ps -> (forall p, List.In p ps -> ~ List.In p (bindings s)) ->
  stringify c (ETuple (map EPlaceholder ps)) s =
  inr (tt, {| buf := buf s ++ "(" ++
                     String.concat "," (placeholderTexts c ps (S (length (bindings s)))) ++ ")";
              bindings := (bindings s ++ ps)%list |}).
Proof.
  intros Hne Hnd Hfresh. destruct ps as [|p0 rest]; [contradiction|].
  change (stringify c (ETuple (map EPlaceholder (p0 :: rest))) s) with
    ((WriteVerbatim "(" ;;
      (stringify c (EPlaceholder p0) ;;
       (fix go (l : list Expr) : M unit :=
          match l with [] => ret tt | a :: l' => WriteVerbatim "," ;; stringify c a ;; go l' end)
         (map EPlaceholder rest)) ;;
      WriteVerbatim ")") s).
  unfold bind at 1. cbn [WriteVerbatim buf bindings].
  unfold bind at 1. unfold bind at 1. rewrite stringify_placeholder. cbn [bindings buf].
  rewrite indexOf_not_In by (apply Hfresh; left; reflexivity).
  inversion Hnd as [|? ? Hp0 Hrest]; subst.
  rewrite placeholders_go by first
    [ exact Hrest
    | intros q Hq Hin; cbn [bindings] in Hin; apply in_app_or in Hin as [Hin|[Hin|[]]];
      [apply (Hfresh q); [right; exact Hq | exact Hin] | subst; contradiction] ].
  cbn [buf bindings]. unfold WriteVerbatim. cbn [buf bindings].
  unfold placeholderTexts. cbn [length seq combine map].
  rewrite concat_comma_cons, length_app. cbn [length]. rewrite <- app_assoc, !append_assoc_str.
  replace (S (Datatypes.length (bindings s) + 1)) with (S (S (Datatypes.length (bindings s)))) by lia. reflexivity.
Qed.

(** X4.  [generatePlaceholders prefix length] fails with [ErrZeroLength]
    when [length <= 0]; otherwise it returns exactly [length] names, the
    [i]-th (from 0) being [prefix] followed by the decimal text of [i+1],
    and these names are pairwise distinct. *)
Theorem generatePlaceholders_spec (prefix : string) (length : Z) :
  ((length <= 0)%Z -> generatePlaceholders prefix length = inl ErrZeroLength) /\
  ((0 < length)%Z -> exists ps, generatePlaceholders prefix length = inr ps /\
     List.length ps = Z.to_nat length /\ NoDup ps /\
     forall i, (i < Z.to_nat length)%nat -> nth_error ps i = Some (prefix ++ Itoa (Z.of_nat i + 1))).
Proof.
  split; intros H; unfold generatePlaceholders.
  - now replace (length <=? 0)%Z with true by (symmetry; apply Z.leb_le; lia).
  - replace (length <=? 0)%Z with false by (symmetry; apply Z.leb_gt; lia).
    eexists; split; [reflexivity|]. split; [|split].
    + now rewrite length_map, length_seq.
    + apply generated_names_NoDup.
    + intros i Hi. rewrite nth_error_map, nth_error_seq.
      replace (PeanoNat.Nat.ltb i (Z.to_nat length)) with true by (symmetry; apply PeanoNat.Nat.ltb_lt; lia).
      reflexivity.
Qed.

Lemma generatePlaceholders_spec_witness :
  (0 < 3)%Z /\
  generatePlaceholders "p" 3 = inr ["p1"; "p2"; "p3"] /\
  exists ps, generatePlaceholders "p" 3 = inr ps /\ List.length ps = 3%nat /\ NoDup ps /\
     forall i, (i < 3)%nat -> nth_error ps i = Some ("p" ++ Itoa (Z.of_nat i + 1)).
Proof.
  split; [lia | split; [reflexivity |]].
  exact (proj2 (generatePlaceholders_spec "p" 3) ltac:(lia)).
Defined.

(** X5.  [PlaceholderTuple prefix length] fails with [ErrZeroLength] when
    [length <= 0]; otherwise it returns the names of [generatePlaceholders]
    together with the tuple of exactly those placeholders, in order (the
    [ErrZeroLength] branch of [makePlaceholderTuple] is then never taken). *)
Theorem PlaceholderTuple_spec (prefix : string) (length : Z) :
  ((length <= 0)%Z -> PlaceholderTuple prefix length = inl ErrZeroLength) /\
  ((0 < length)%Z -> exists ps, generatePlaceholders prefix length = inr ps /\ ps <> [] /\
     PlaceholderTuple prefix length = inr (ps, ETuple (map EPlaceholder ps))).
Proof.
  unfold PlaceholderTuple. split; intros H.
  - now rewrite (proj1 (generatePlaceholders_spec prefix length) H).
  - destruct (proj2 (generatePlaceholders_spec prefix length) H) as [ps [E [Hl _]]].
    rewrite E. exists ps. destruct ps as [|p0 rest].
    + cbn in Hl. lia.
    + split; [reflexivity | split; [discriminate | reflexivity]].
Qed.

Lemma PlaceholderTuple_spec_witness :
  (0 < 2)%Z /\
  exists ps, generatePlaceholders "v" 2 = inr ps /\ ps <> [] /\
     PlaceholderTuple "v" 2 = inr (ps, ETuple (map EPlaceholder ps)).
Proof. split; [lia | exact (proj2 (PlaceholderTuple_spec "v" 2) ltac:(lia))]. Defined.

(** X6.  Rendering the tuple of [PlaceholderTuple prefix length] when none
    of its names is bound yet writes ["("], the dialect's placeholder texts
    for the names at the next positions [k+1], [k+2], ... ([k] names being
    bound before) separated by bare commas, and [")"]; the names are bound
    in order, after the existing ones. *)
Theorem PlaceholderTuple_render (c : Dialect) (prefix : string) (length : Z)
    (ps : list string) (t : Expr) (s : State) :
  PlaceholderTuple prefix length = inr (ps, t) ->
  (forall p, List.In p ps -> ~ List.In p (bindings s)) ->
  stringify c t s =
  inr (tt, {| buf := buf s ++ "(" ++
                     String.concat "," (placeholderTexts c ps (S (List.length (bindings s)))) ++ ")";
              bindings := (bindings s ++ ps)%list |}).
Proof.
  intros E Hfresh.
  destruct (Z.le_gt_cases length 0) as [Hle|Hgt].
  - rewrite (proj1 (PlaceholderTuple_spec prefix length) Hle) in E. discriminate.
  - destruct (proj2 (PlaceholderTuple_spec prefix length) ltac:(lia)) as [ps' [G [Hne E']]].
    rewrite E' in E. injection E as <- <-.
    destruct (proj2 (generatePlaceholders_spec prefix length) ltac:(lia)) as [ps'' [G' [_ [Hnd _]]]].
    rewrite G in G'. injection G' as <-.
    now apply placeholder_tuple_text.
Qed.

Lemma PlaceholderTuple_render_witness :
  PlaceholderTuple "v" 3 = inr (["v1"; "v2"; "v3"], ETuple [EPlaceholder "v1"; EPlaceholder "v2"; EPlaceholder "v3"]) /\
  (forall p, List.In p ["v1"; "v2"; "v3"] -> ~ List.In p (bindings {| buf := "x IN "; bindings := ["w"] |})) /\
  stringify pgDialect (ETuple [EPlaceholder "v1"; EPlaceholder "v2"; EPlaceholder "v3"])
    {| buf := "x IN "; bindings := ["w"] |} =
  inr (tt, {| buf := "x IN ($2,$3,$4)"; bindings := ["w"; "v1"; "v2"; "v3"] |}).
Proof.
  assert (E : PlaceholderTuple "v" 3 = inr (["v1"; "v2"; "v3"],
                ETuple [EPlaceholder "v1"; EPlaceholder "v2"; EPlaceholder "v3"])) by reflexivity.
  assert (F : forall p, List.In p ["v1"; "v2"; "v3"] -> ~ List.In p (bindings {| buf := "x IN "; bindings := ["w"] |})).
  { intros p Hp Hw. cbn in Hp, Hw. destruct Hw as [<-|[]]. intuition discriminate. }
  split; [exact E | split; [exact F |]].
  exact (PlaceholderTuple_render pgDialect "v" 3 _ _ _ E F).
Defined.

(** ** CASE builders ([Case], [When], [Else]) *)

(** The fields of a [*CaseExpr]; [caseExpr] is that pointer used as an
    [Expr].  [When] and [Else] update the receiver in place and return it;
    here they return the updated fields. *)
Record CaseExpr := { ce_conds : list Expr; ce_results : list Expr; ce_else : option Expr }.

Definition caseExpr (ce : CaseExpr) : Expr := ECase (ce_conds ce) (ce_results ce) (ce_else ce).

Definition Case (cond result : Expr) : CaseExpr :=
  {| ce_conds := [cond]; ce_results := [result]; ce_else := None |}.

Definition When (ce : CaseExpr) (cond result : Expr) : CaseExpr :=
  {| ce_conds := (ce_conds ce ++ [cond])%list; ce_results := (ce_results ce ++ [result])%list;
     ce_else := ce_else ce |}.

Definition Else (ce : CaseExpr) (elseExpr : Expr) : CaseExpr :=
  {| ce_conds := ce_conds ce; ce_results := ce_results ce; ce_else := Some elseExpr |}.

(** A chain of builder calls after [Case]. *)
Inductive CaseCall := CallWhen (cond result : Expr) | CallElse (elseExpr : Expr).

Definition applyCaseCall (ce : CaseExpr) (k : CaseCall) : CaseExpr :=
  match k with CallWhen c r => When ce c r | CallElse e => Else ce e end.

Definition buildCase (cond result : Expr) (calls : list CaseCall) : CaseExpr :=
  fold_left applyCaseCall calls (Case cond result).

(** An expression that renders to the fixed text [t] and binds nothing. *)
Definition ExprText (c : Dialect) (e : Expr) (t : string) : Prop :=
  forall s, stringify c e s = inr (tt, {| buf := buf s ++ t; bindings := bindings s |}).

(** X7.  A CASE built by [Case] and any chain of [When]/[Else] calls has as
    many results as conditions, at least one of each, and the rewrite pass
    keeps both counts; so the [results[i]] access of its rendering never
    goes out of range. *)
Theorem buildCase_lengths (cond result : Expr) (calls : list CaseCall) :
  let ce := buildCase cond result calls in
  List.length (ce_conds ce) = List.length (ce_results ce) /\ 1 <= List.length (ce_conds ce) /\
  match transform (caseExpr ce) with
  | ECase cs rs _ => List.length cs = List.length (ce_conds ce) /\ List.length rs = List.length (ce_results ce)
  | _ => False
  end.
Proof.
  cbn zeta. unfold buildCase.
  assert (H : forall ce, List.length (ce_conds ce) = List.length (ce_results ce) /\ 1 <= List.length (ce_conds ce) ->
            let ce' := fold_left applyCaseCall calls ce in
            List.length (ce_conds ce') = List.length (ce_results ce') /\ 1 <= List.length (ce_conds ce')).
  { induction calls as [|k calls IH]; intros ce Hce; cbn [fold_left]; [exact Hce|].
    apply IH. destruct k; cbn; rewrite ?length_app; cbn; lia. }
  destruct (H (Case cond result) ltac:(cbn; lia)) as [H1 H2].
  split; [exact H1 | split; [exact H2 |]].
  cbn [caseExpr transform]. now rewrite !length_map.
Qed.

Lemma case_go_text (c : Dialect) (conds : list Expr) (cts : list string) :
  Forall2 (ExprText c) conds cts ->
  forall results rts, Forall2 (ExprText c) results rts -> List.length conds = List.length results ->
  forall s,
  (fix go (cs : list Expr) (rs : list (M unit)) : M unit :=
     match cs with
     | [] => ret tt
     | cnd :: cs' =>
         WriteVerbatim " WHEN " ;; stringify c cnd ;; WriteVerbatim " THEN " ;;
         match rs with
         | [] => fail ErrIndexOutOfRange
         | r :: rs' => r ;; go cs' rs'
         end
     end) conds (map (stringify c) results) s =
  inr (tt, {| buf := buf s ++ fold_right (fun '(ct, rt) acc => " WHEN " ++ ct ++ " THEN " ++ rt ++ acc) ""
                                  (combine cts rts);
              bindings := bindings s |}).
Proof.
  induction 1 as [|cnd ct conds cts Hc Hcs IH]; intros results rts Hr Hlen s.
  - destruct Hr; [|discriminate]. unfold ret. destruct s. cbn. now rewrite append_empty_r.
  - destruct Hr as [|r rt results rts Hr1 Hrs]; [discriminate|]. cbn [map].
    unfold bind at 1. cbn [WriteVerbatim buf bindings].
    unfold bind at 1. rewrite Hc. cbn [buf bindings].
    unfold bind at 1. cbn [WriteVerbatim buf bindings].
    unfold bind at 1. rewrite Hr1. cbn [buf bindings].
    rewrite (IH results rts Hrs ltac:(cbn in Hlen; lia)). cbn [buf bindings combine fold_right].
    now rewrite !append_assoc_str.
Qed.

(** X8.  A CASE whose conditions, results and ELSE branch render to fixed
    texts, with as many results as conditions, renders
    ["CASE"], then [" WHEN ci THEN ri"] for each pair in order, then
    [" ELSE e"] when there is an ELSE branch, then [" END"]. *)
Theorem case_render (c : Dialect) (conds results : list Expr) (el : option Expr)
    (cts rts : list string) (et : option string) (s : State) :
  Forall2 (ExprText c) conds cts -> Forall2 (ExprText c) results rts ->
  List.length conds = List.length results ->
  match el, et with
  | None, None => True
  | Some e, Some t => ExprText c e t
  | _, _ => False
  end ->
  stringify c (ECase conds results el) s =
  inr (tt, {| buf := buf s ++ "CASE" ++
                     fold_right (fun '(ct, rt) acc => " WHEN " ++ ct ++ " THEN " ++ rt ++ acc) "" (combine cts rts) ++
                     match et with None => "" | Some t => " ELSE " ++ t end ++ " END";
              bindings := bindings s |}).
Proof.
  intros Hc Hr Hlen Hel. cbn [stringify].
  unfold bind at 1. cbn [WriteVerbatim buf bindings].
  unfold bind at 1. rewrite (case_go_text c conds cts Hc results rts Hr Hlen). cbn [buf bindings].
  destruct el as [e|], et as [t|]; try contradiction.
  - unfold bind at 1. unfold bind at 1. cbn [WriteVerbatim buf bindings]. rewrite Hel.
    cbn [buf bindings]. unfold WriteVerbatim. cbn [buf bindings]. now rewrite !append_assoc_str.
  - unfold bind at 1. unfold ret. unfold WriteVerbatim. cbn [buf bindings].
    now rewrite !append_assoc_str.
Qed.

Lemma col_text (c : Dialect) (n : string) : ExprText c (col n) (quoteIdentifier c n).
Proof. intros s. reflexivity. Qed.

Lemma case_render_witness :
  Forall2 (ExprText sampleDialect) [col "a"; col "b"] ["a"; "b"] /\
  Forall2 (ExprText sampleDialect) [col "x"; col "y"] ["x"; "y"] /\
  ExprText sampleDialect (col "z") "z" /\
  stringify sampleDialect (caseExpr (Else (When (Case (col "a") (col "x")) (col "b") (col "y")) (col "z")))
    emptyState =
  inr (tt, {| buf := "CASE WHEN a THEN x WHEN b THEN y ELSE z END"; bindings := [] |}).
Proof.
  assert (H1 : Forall2 (ExprText sampleDialect) [col "a"; col "b"] ["a"; "b"])
    by (repeat constructor; apply col_text).
  assert (H2 : Forall2 (ExprText sampleDialect) [col "x"; col "y"] ["x"; "y"])
    by (repeat constructor; apply col_text).
  assert (H3 : ExprText sampleDialect (col "z") "z") by apply col_text.
  split; [exact H1 | split; [exact H2 | split; [exact H3 |]]].
  exact (case_render sampleDialect [col "a"; col "b"] [col "x"; col "y"] (Some (col "z"))
           ["a"; "b"] ["x"; "y"] (Some "z") emptyState H1 H2 eq_refl H3).
Defined.

(** ** The rewrite pass on statements ([SelectStmt.Transform] and the clause [Transform]s) *)

Definition transformOrderbyItem (o : orderbyItem) : orderbyItem :=
  {| o_expr := transform (o_expr o); o_desc := o_desc o; o_nullsSet := o_nullsSet o;
     o_nullsLast := o_nullsLast o |}.

(** [LabeledColumn.Transform] and [LabeledTable.Transform] return the node
    unchanged, so the column list and a table reference are kept as they are. *)
Fixpoint transformSelectStmt (s : SelectStmt) : SelectStmt :=
  match s with
  | MkSelectStmt cols from wh gb hv ob lim off =>
      MkSelectStmt cols (option_map transformFromClauseItem from) (option_map transform wh)
        (option_map (map transform) gb) (option_map transform hv)
        (option_map (map transformOrderbyItem) ob) (option_map transform lim)
        (option_map transform off)
  end
with transformFromClauseItem (f : FromClauseItem) : FromClauseItem :=
  match f with
  | MkFromClauseItem (Some t) q j => MkFromClauseItem (Some t) q j
  | MkFromClauseItem None (Some q) j => MkFromClauseItem None (Some (transformLabeledSelectStmt q)) j
  | MkFromClauseItem None None (Some j) => MkFromClauseItem None None (Some (transformJoinClause j))
  | MkFromClauseItem None None None => MkFromClauseItem None None None
  end
with transformLabeledSelectStmt (l : LabeledSelectStmt) : LabeledSelectStmt :=
  match l with
  | MkLabeledSelectStmt s lbl => MkLabeledSelectStmt (transformSelectStmt s) lbl
  end
with transformJoinClause (j : JoinClause) : JoinClause :=
  match j with
  | MkJoinClause jt l r on =>
      MkJoinClause jt (transformFromClauseItem l) (transformFromClauseItem r) (transform on)
  end.

Lemma transform_twice (e : Expr) : transform (transform e) = transform e.
Proof. exact (transform_canonical_id _ (proj1 (transform_canonical e))). Qed.

Lemma map_transform_twice (l : list Expr) : map transform (map transform l) = map transform l.
Proof. rewrite map_map. apply map_ext, transform_twice. Qed.

Lemma transformSelectStmt_idempotent (s : SelectStmt) :
  transformSelectStmt (transformSelectStmt s) = transformSelectStmt s
with transformFromClauseItem_idempotent (f : FromClauseItem) :
  transformFromClauseItem (transformFromClauseItem f) = transformFromClauseItem f
with transformLabeledSelectStmt_idempotent (l : LabeledSelectStmt) :
  transformLabeledSelectStmt (transformLabeledSelectStmt l) = transformLabeledSelectStmt l
with transformJoinClause_idempotent (j : JoinClause) :
  transformJoinClause (transformJoinClause j) = transformJoinClause j.
Proof.
  - destruct s as [cols from wh gb hv ob lim off]. cbn [transformSelectStmt].
    f_equal.
    + destruct from as [f|]; cbn [option_map]; [now rewrite transformFromClauseItem_idempotent | reflexivity].
    + destruct wh; cbn [option_map]; [now rewrite transform_twice | reflexivity].
    + destruct gb; cbn [option_map]; [now rewrite map_transform_twice | reflexivity].
    + destruct hv; cbn [option_map]; [now rewrite transform_twice | reflexivity].
    + destruct ob as [os|]; cbn [option_map]; [|reflexivity]. f_equal.
      rewrite map_map. apply map_ext. intros o. unfold transformOrderbyItem. cbn.
      now rewrite transform_twice.
    + destruct lim; cbn [option_map]; [now rewrite transform_twice | reflexivity].
    + destruct off; cbn [option_map]; [now rewrite transform_twice | reflexivity].
  - destruct f as [[t|] [q|] [j|]]; cbn [transformFromClauseItem]; try reflexivity.
    + now rewrite transformLabeledSelectStmt_idempotent.
    + now rewrite transformLabeledSelectStmt_idempotent.
    + now rewrite transformJoinClause_idempotent.
  - destruct l as [s lbl]. cbn [transformLabeledSelectStmt]. now rewrite transformSelectStmt_idempotent.
  - destruct j as [jt l r on]. cbn [transformJoinClause].
    now rewrite !transformFromClauseItem_idempotent, transform_twice.
Qed.

(** X9.  On a statement the rewrite pass keeps the column list exactly as
    it is (column expressions are not rewritten, not even a NOT over a
    negatable operator), rewrites the WHERE, GROUP BY, HAVING, ORDER BY,
    LIMIT and OFFSET expressions with the expression rewrite, and applying
    it a second time changes nothing. *)
Theorem transformSelectStmt_spec (cols : list LabeledColumn) from wh gb hv ob lim off :
  let st := MkSelectStmt cols from wh gb hv ob lim off in
  transformSelectStmt st =
    MkSelectStmt cols (option_map transformFromClauseItem from) (option_map transform wh)
      (option_map (map transform) gb) (option_map transform hv)
      (option_map (map (fun o => {| o_expr := transform (o_expr o); o_desc := o_desc o;
                                    o_nullsSet := o_nullsSet o; o_nullsLast := o_nullsLast o |})) ob)
      (option_map transform lim) (option_map transform off) /\
  transformSelectStmt (transformSelectStmt st) = transformSelectStmt st.
Proof. split; [reflexivity | apply transformSelectStmt_idempotent]. Qed.

(** The SELECT list is rendered as written, the WHERE clause after the rewrite. *)
Example transformSelectStmt_columns_kept :
  let st := MkSelectStmt [sampleColumn "a" "x"; {| lc_Expr := Not (IsNull (col "b")); lc_Label := "y" |}]
              None (Some (Not (IsNull (col "b")))) None None None None None in
  stringifySelectStmt sampleDialect (transformSelectStmt st) emptyState =
  inr (tt, {| buf := "SELECT a x,NOT b IS NULL y WHERE b IS NOT NULL"; bindings := [] |}).
Proof. reflexivity. Qed.


(** ** Rendering statements only adds bindings *)

#[local] Hint Resolve Grows_stringify : grows.

Lemma Grows_stringifyCommaSeparated (ms : list (M unit)) :
  Forall Grows ms -> Grows (stringifyCommaSeparated ms).
Proof.
  intros H. destruct H as [|m0 rest H0 Hrest]; cbn; [auto with grows|].
  apply Grows_bind; [exact H0 | intros _].
  induction Hrest as [|m l Hm Hl IH]; cbn; [auto with grows|].
  apply Grows_bind; [auto with grows | intros _]. apply Grows_bind; [exact Hm | intros _]. exact IH.
Qed.

Lemma Grows_optClause {A} (o : option A) (f : A -> M unit) :
  (forall a, Grows (f a)) -> Grows (optClause o f).
Proof. intros H. destruct o; cbn; auto with grows. Qed.

Lemma Grows_stringifyOrderbyItem c o : Grows (stringifyOrderbyItem c o).
Proof.
  unfold stringifyOrderbyItem.
  repeat (apply Grows_bind; intros) || apply Grows_if; auto with grows.
Qed.

Lemma Grows_stringifyLabeledColumn c l : Grows (stringifyLabeledColumn c l).
Proof. unfold stringifyLabeledColumn, WriteIdentifier. repeat (apply Grows_bind; intros); auto with grows. Qed.

Lemma Grows_stringifyLabeledTable c l : Grows (stringifyLabeledTable c l).
Proof.
  unfold stringifyLabeledTable, WriteIdentifier.
  repeat (apply Grows_bind; intros) || apply Grows_if; auto with grows.
Qed.

#[local] Hint Resolve Grows_stringifyCommaSeparated Grows_optClause Grows_stringifyOrderbyItem
  Grows_stringifyLabeledColumn Grows_stringifyLabeledTable : grows.

Lemma Grows_Forall_map {A} (f : A -> M unit) (l : list A) :
  (forall a, Grows (f a)) -> Forall Grows (map f l).
Proof. intros H. induction l; constructor; auto. Qed.

#[local] Hint Resolve Grows_Forall_map : grows.

Lemma Grows_stringifySelectStmt (c : Dialect) (s : SelectStmt) : Grows (stringifySelectStmt c s)
with Grows_stringifyFromClauseItem (c : Dialect) (f : FromClauseItem) : Grows (stringifyFromClauseItem c f)
with Grows_stringifyLabeledSelectStmt (c : Dialect) (l : LabeledSelectStmt) :
  Grows (stringifyLabeledSelectStmt c l)
with Grows_stringifyJoinClause (c : Dialect) (j : JoinClause) : Grows (stringifyJoinClause c j).
Proof.
  - destruct s as [cols from wh gb hv ob lim off]. cbn [stringifySelectStmt].
    apply Grows_bind; [auto with grows | intros _].
    apply Grows_bind.
    { destruct cols as [|c0 rest]; [auto with grows|].
      apply Grows_bind; [auto with grows | intros _].
      induction rest as [|se rest IH]; cbn; [auto with grows|].
      apply Grows_bind; [auto with grows | intros _].
      apply Grows_bind; [auto with grows | intros _]. exact IH. }
    intros _. apply Grows_bind.
    { destruct from as [f|]; [|auto with grows].
      apply Grows_bind; [auto with grows | intros _].
      apply Grows_bind; [auto with grows | intros _]. apply Grows_stringifyFromClauseItem. }
    intros _. repeat (apply Grows_bind; [apply Grows_optClause; intros; auto with grows | intros _]).
    apply Grows_optClause; intros; auto with grows.
  - destruct f as [[t|] [q|] [j|]]; cbn [stringifyFromClauseItem];
      first [ apply Grows_stringifyLabeledTable | apply Grows_stringifyLabeledSelectStmt
            | apply Grows_stringifyJoinClause | apply Grows_fail ].
  - destruct l as [s' lbl]. cbn [stringifyLabeledSelectStmt]. unfold WriteIdentifier.
    apply Grows_bind; [apply Grows_WriteVerbatim | intros _].
    apply Grows_bind; [apply Grows_stringifySelectStmt | intros _].
    apply Grows_bind; [apply Grows_WriteVerbatim | intros _]. apply Grows_WriteVerbatim.
  - destruct j as [jt l r on]. cbn [stringifyJoinClause].
    apply Grows_bind; [apply Grows_stringifyFromClauseItem | intros _].
    apply Grows_bind; [apply Grows_WriteVerbatim | intros _].
    apply Grows_bind; [apply Grows_stringifyFromClauseItem | intros _].
    apply Grows_bind; [apply Grows_WriteVerbatim | intros _]. apply Grows_stringify.
Qed.

#[local] Hint Resolve Grows_stringifyFromClauseItem : grows.

(** X10.  Rendering an expression or a SELECT statement only appends: on
    success the text written before is a prefix of the new text, the bound
    names are extended at the end only, and every name bound before keeps
    its position. *)
Theorem render_append_only (c : Dialect) :
  (forall e s a s', stringify c e s = inr (a, s') ->
     (exists t l, buf s' = buf s ++ t /\ bindings s' = (bindings s ++ l)%list) /\
     forall p i, indexOf p (bindings s) = Some i -> indexOf p (bindings s') = Some i) /\
  (forall st s a s', stringifySelectStmt c st s = inr (a, s') ->
     (exists t l, buf s' = buf s ++ t /\ bindings s' = (bindings s ++ l)%list) /\
     forall p i, indexOf p (bindings s) = Some i -> indexOf p (bindings s') = Some i).
Proof.
  split.
  - intros e s a s' E.
    destruct (Appends_stringify c e s a s' E) as [t Ht], (Grows_stringify c e s a s' E) as [l Hl].
    split; [now exists t, l|]. intros p i Hi. rewrite Hl. now apply indexOf_app.
  - intros st s a s' E.
    destruct (Appends_stringifySelectStmt c st s a s' E) as [t Ht],
             (Grows_stringifySelectStmt c st s a s' E) as [l Hl].
    split; [now exists t, l|]. intros p i Hi. rewrite Hl. now apply indexOf_app.
Qed.

Lemma render_append_only_witness :
  stringify pgDialect (Eq (col "a") (EPlaceholder "v")) {| buf := "x = $1 AND "; bindings := ["w"] |} =
    inr (tt, {| buf := "x = $1 AND a = $2"; bindings := ["w"; "v"] |}) /\
  (exists t l, "x = $1 AND a = $2" = "x = $1 AND " ++ t /\ ["w"; "v"] = (["w"] ++ l)%list) /\
  forall p i, indexOf p ["w"] = Some i -> indexOf p ["w"; "v"] = Some i.
Proof.
  assert (E : stringify pgDialect (Eq (col "a") (EPlaceholder "v")) {| buf := "x = $1 AND "; bindings := ["w"] |} =
    inr (tt, {| buf := "x = $1 AND a = $2"; bindings := ["w"; "v"] |})) by reflexivity.
  split; [exact E |].
  exact (proj1 (render_append_only pgDialect) _ _ _ _ E).
Defined.

(** X11.  A FROM item with none of its three pointers set makes the whole
    SELECT fail with [ErrUnknownFromClauseItem] once the columns are
    written, whatever the later clauses are; a FROM item with a table
    reference renders only that table, ignoring a subquery or join also
    set, and the rewrite pass also leaves those untouched. *)
Theorem from_item_cases (c : Dialect) :
  (forall c0 rest t0 ts wh gb hv ob lim off s,
     ColumnText c c0 t0 -> Forall2 (ColumnText c) rest ts ->
     stringifySelectStmt c (MkSelectStmt (c0 :: rest) (Some (MkFromClauseItem None None None))
                              wh gb hv ob lim off) s = inl ErrUnknownFromClauseItem) /\
  (forall t q j, stringifyFromClauseItem c (MkFromClauseItem (Some t) q j) = stringifyLabeledTable c t /\
                 transformFromClauseItem (MkFromClauseItem (Some t) q j) = MkFromClauseItem (Some t) q j).
Proof.
  split.
  - intros c0 rest t0 ts wh gb hv ob lim off s H0 Hrest.
    cbn [stringifySelectStmt]. unfold bind at 1. cbn [WriteVerbatim].
    rewrite (bind_inr _ _ _ _ _ (columns_part c c0 rest t0 ts H0 Hrest _)).
    reflexivity.
  - intros t q j. split; reflexivity.
Qed.

Lemma from_item_cases_witness :
  ColumnText sampleDialect (sampleColumn "a" "x") "a x" /\
  stringifySelectStmt sampleDialect
    (MkSelectStmt [sampleColumn "a" "x"] (Some (MkFromClauseItem None None None))
       (Some (col "b")) None None None None None) emptyState = inl ErrUnknownFromClauseItem.
Proof.
  assert (H0 : ColumnText sampleDialect (sampleColumn "a" "x") "a x") by exact (sampleColumn_text "a" "x").
  split; [exact H0 |].
  exact (proj1 (from_item_cases sampleDialect) _ [] _ [] _ _ _ _ _ _ emptyState H0 (Forall2_nil _)).
Defined.

(** ** What the rewrite pass keeps: the column and placeholder references *)

(** The column and placeholder nodes of an expression, left to right. *)
Fixpoint references (e : Expr) : list Expr :=
  match e with
  | EUnary _ x => references x
  | EBinary _ l r => (references l ++ references r)%list
  | ETernary _ x1 x2 x3 => (references x1 ++ references x2 ++ references x3)%list
  | ESQLType _ => []
  | EColumn tl n => [EColumn tl n]
  | EPlaceholder p => [EPlaceholder p]
  | ECast x _ => references x
  | EFunc _ args _ => flat_map references args
  | ETuple xs => flat_map references xs
  | ECase cs rs el =>
      (flat_map references cs ++ flat_map references rs ++
       match el with None => [] | Some x => references x end)%list
  end.

Lemma references_under_not (e : Expr) :
  is_operator e && negatable e = false -> references (transform e) = references e ->
  forall u, references (transform (EUnary u e)) = references e.
Proof.
  intros Hn H u. destruct (isNot u) eqn:Hu.
  - rewrite transform_not_plain by assumption. exact H.
  - rewrite transform_unary_plain by exact Hu. exact H.
Qed.

Lemma flat_map_references_transform (l : list Expr) :
  Forall (fun x => references (transform x) = references x /\
                   forall u, references (transform (EUnary u x)) = references x) l ->
  flat_map references (map transform l) = flat_map references l.
Proof. induction 1 as [|x l [Hx _] _ IH]; cbn; [reflexivity | now rewrite Hx, IH]. Qed.

Lemma references_transform_both (e : Expr) :
  references (transform e) = references e /\
  forall u, references (transform (EUnary u e)) = references e.
Proof.
  induction e as [u e IHe|b l r IHe1 IHe2|t x1 x2 x3 IHe1 IHe2 IHe3| | | |x ty IHe|n args o Hargs|xs Hxs|cs rs el Hcs Hrs Hel]
    using Expr_ind'.
  - destruct IHe as [IH1 IH2]. split; [apply IH2|].
    intros u'. destruct (isNot u') eqn:Hu'.
    2:{ rewrite transform_unary_plain by exact Hu'. exact (IH2 u). }
    destruct (is_operator (EUnary u e) && negatable (EUnary u e)) eqn:Hn.
    + apply andb_true_iff in Hn as [Ho Hn].
      rewrite transform_not_negatable by assumption. cbn [negate].
      destruct (isNot u); [exact IH1 | exact (IH2 _)].
    + rewrite transform_not_plain by assumption. exact (IH2 u).
  - destruct IHe1 as [IH1 _], IHe2 as [IH2 _].
    assert (C : references (transform (EBinary b l r)) = references (EBinary b l r))
      by (cbn [transform references]; now rewrite IH1, IH2).
    split; [exact C|]. intros u.
    destruct (isNot u) eqn:Hu.
    2:{ rewrite transform_unary_plain by exact Hu. exact C. }
    destruct (is_operator (EBinary b l r) && negatable (EBinary b l r)) eqn:Hn.
    + apply andb_true_iff in Hn as [Ho Hn].
      rewrite transform_not_negatable by assumption. exact C.
    + rewrite transform_not_plain by assumption. exact C.
  - destruct IHe1 as [IH1 _], IHe2 as [IH2 _], IHe3 as [IH3 _].
    assert (C : references (transform (ETernary t x1 x2 x3)) = references (ETernary t x1 x2 x3))
      by (cbn [transform references]; now rewrite IH1, IH2, IH3).
    split; [exact C|]. intros u.
    destruct (isNot u) eqn:Hu.
    2:{ rewrite transform_unary_plain by exact Hu. exact C. }
    destruct (is_operator (ETernary t x1 x2 x3) && negatable (ETernary t x1 x2 x3)) eqn:Hn.
    + apply andb_true_iff in Hn as [Ho Hn].
      rewrite transform_not_negatable by assumption. exact C.
    + rewrite transform_not_plain by assumption. exact C.
  - split; [reflexivity|]. apply references_under_not; reflexivity.
  - split; [reflexivity|]. apply references_under_not; reflexivity.
  - split; [reflexivity|]. apply references_under_not; reflexivity.
  - assert (C : references (transform (ECast x ty)) = references (ECast x ty))
      by (cbn [transform references]; apply (proj1 IHe)).
    split; [exact C|]. apply references_under_not; [reflexivity | exact C].
  - assert (C : references (transform (EFunc n args o)) = references (EFunc n args o))
      by (cbn [transform references]; now apply flat_map_references_transform).
    split; [exact C|]. apply references_under_not; [reflexivity | exact C].
  - assert (C : references (transform (ETuple xs)) = references (ETuple xs))
      by (cbn [transform references]; now apply flat_map_references_transform).
    split; [exact C|]. apply references_under_not; [reflexivity | exact C].
  - assert (C : references (transform (ECase cs rs el)) = references (ECase cs rs el)).
    { cbn [transform references]. rewrite !flat_map_references_transform by assumption.
      destruct el as [x|]; cbn [option_map]; [now rewrite (proj1 (Hel x eq_refl)) | reflexivity]. }
    split; [exact C|]. apply references_under_not; [reflexivity | exact C].
Qed.

(** X12.  The rewrite pass never adds, drops or reorders a column or
    placeholder: the column and placeholder nodes of the rewritten tree are
    those of the original, in the same left-to-right order. *)
Theorem transform_keeps_references (e : Expr) : references (transform e) = references e.
Proof. exact (proj1 (references_transform_both e)). Qed.

(** ** Function calls ([checkFuncName], [Func], [Func0]) *)

Definition isLetter (ch : ascii) : bool :=
  let n := nat_of_ascii ch in ((Nat.leb 65 n) && (Nat.leb n 90)) || ((Nat.leb 97 n) && (Nat.leb n 122)).

Definition isDigit (ch : ascii) : bool :=
  let n := nat_of_ascii ch in (Nat.leb 48 n) && (Nat.leb n 57).

(** The class [[a-zA-Z0-9_.]]. *)
Definition isNameChar (ch : ascii) : bool :=
  isLetter ch || isDigit ch || Ascii.eqb ch "_"%char || Ascii.eqb ch "."%char.

Fixpoint allNameChars (s : string) : bool :=
  match s with EmptyString => true | String ch r => isNameChar ch && allNameChars r end.

(** [funcNameRegexp.MatchString]: [^[a-zA-Z][a-zA-Z0-9_.]*$] on the whole string. *)
Definition funcNameMatches (name : string) : bool :=
  match name with EmptyString => false | String ch r => isLetter ch && allNameChars r end.

(** [checkFuncName] panics on a name the pattern rejects; [None] is that panic. *)
Definition checkFuncName (name : string) : option unit :=
  if funcNameMatches name then Some tt else None.

Definition Func (name : string) : option (list Expr -> Expr) :=
  match checkFuncName name with
  | None => None
  | Some _ => Some (fun args => EFunc name args false)
  end.

Definition Func0 (name : string) : option Expr :=
  match checkFuncName name with
  | None => None
  | Some _ => Some (EFunc name [] true)
  end.

Lemma exprs_go_text (c : Dialect) (xs : list Expr) (ts : list string) :
  Forall2 (ExprText c) xs ts ->
  forall s,
  (fix go (l : list Expr) : M unit :=
     match l with [] => ret tt | a :: l' => WriteVerbatim "," ;; stringify c a ;; go l' end) xs s =
  inr (tt, {| buf := buf s ++ fold_right (fun t acc => "," ++ t ++ acc) "" ts; bindings := bindings s |}).
Proof.
  induction 1 as [|x t xs ts Hx Hxs IH]; intros s.
  - unfold ret. destruct s. cbn. now rewrite append_empty_r.
  - unfold bind at 1. cbn [WriteVerbatim buf bindings].
    unfold bind at 1. rewrite Hx. cbn [buf bindings]. rewrite IH. cbn [buf bindings].
    now rewrite !append_assoc_str.
Qed.

(** X13.  [Func] and [Func0] panic on a name the pattern
    [^[a-zA-Z][a-zA-Z0-9_.]*$] rejects (in particular the empty name).  For
    an accepted name, [Func0 name] renders the bare name, [Func name] with
    no argument renders [name()], and with arguments renders the name and
    the argument texts in parentheses, separated by bare commas. *)
Theorem func_builders (c : Dialect) (name : string) :
  (funcNameMatches name = false -> Func name = None /\ Func0 name = None) /\
  (funcNameMatches name = true ->
     exists f, Func name = Some f /\
     (forall s, stringify c (f []) s = inr (tt, {| buf := buf s ++ name ++ "()"; bindings := bindings s |})) /\
     (forall a0 rest t0 ts s, Forall2 (ExprText c) (a0 :: rest) (t0 :: ts) ->
        stringify c (f (a0 :: rest)) s =
        inr (tt, {| buf := buf s ++ name ++ "(" ++ String.concat "," (t0 :: ts) ++ ")";
                    bindings := bindings s |})) /\
     exists e, Func0 name = Some e /\
     forall s, stringify c e s = inr (tt, {| buf := buf s ++ name; bindings := bindings s |})).
Proof.
  unfold Func, Func0, checkFuncName. split; intros H; rewrite H; [split; reflexivity|].
  eexists; split; [reflexivity | split; [| split]].
  - intros s. unfold stringify, bind, WriteVerbatim. cbn. now rewrite append_assoc_str.
  - intros a0 rest t0 ts s Hargs. inversion Hargs as [|? ? ? ? H0 Hrest]; subst.
    cbn [stringify]. unfold bind at 1. cbn [WriteVerbatim buf bindings].
    unfold bind at 1. cbn [WriteVerbatim buf bindings].
    unfold bind at 1. rewrite H0. cbn [buf bindings].
    unfold bind at 1. rewrite (exprs_go_text c rest ts Hrest). cbn [buf bindings].
    unfold WriteVerbatim. cbn [buf bindings].
    now rewrite concat_comma_cons, !append_assoc_str.
  - eexists; split; [reflexivity|]. intros s. reflexivity.
Qed.

Lemma func_builders_witness :
  funcNameMatches "COALESCE" = true /\ funcNameMatches "" = false /\ funcNameMatches "1st" = false /\
  Func "" = None /\ Func0 "1st" = None /\
  exists f, Func "COALESCE" = Some f /\
    stringify sampleDialect (f [col "a"; col "b"]) emptyState =
    inr (tt, {| buf := "COALESCE(a,b)"; bindings := [] |}).
Proof.
  split; [reflexivity | split; [reflexivity | split; [reflexivity |]]].
  split; [exact (proj1 (proj1 (func_builders sampleDialect "") eq_refl)) |].
  split; [exact (proj2 (proj1 (func_builders sampleDialect "1st") eq_refl)) |].
  destruct (proj2 (func_builders sampleDialect "COALESCE") eq_refl) as [f [Hf [_ [Hargs _]]]].
  exists f. split; [exact Hf|].
  rewrite (Hargs (col "a") [col "b"] "a" ["b"] emptyState
             (Forall2_cons _ _ (col_text _ _) (Forall2_cons _ _ (col_text _ _) (Forall2_nil _)))).
  reflexivity.
Defined.

(** X14.  A tuple built by [MakeTuple first rest] whose elements render to
    fixed texts renders ["("], the texts separated by bare commas, and [")"];
    [MakeTuple] always has at least one element, so it never renders [()]. *)
Theorem MakeTuple_render (c : Dialect) (first : Expr) (rest : list Expr) (t0 : string) (ts : list string)
    (s : State) :
  ExprText c first t0 -> Forall2 (ExprText c) rest ts ->
  stringify c (MakeTuple first rest) s =
  inr (tt, {| buf := buf s ++ "(" ++ String.concat "," (t0 :: ts) ++ ")"; bindings := bindings s |}).
Proof.
  intros H0 Hrest. unfold MakeTuple. cbn [stringify].
  unfold bind at 1. cbn [WriteVerbatim buf bindings].
  unfold bind at 1. unfold bind at 1. rewrite H0. cbn [buf bindings].
  rewrite (exprs_go_text c rest ts Hrest). cbn [buf bindings].
  unfold WriteVerbatim. cbn [buf bindings].
  now rewrite concat_comma_cons, !append_assoc_str.
Qed.

Lemma MakeTuple_render_witness :
  ExprText sampleDialect (col "a") "a" /\
  Forall2 (ExprText sampleDialect) [col "b"; EColumn "t" "c"] ["b"; "t.c"] /\
  stringify sampleDialect (MakeTuple (col "a") [col "b"; EColumn "t" "c"]) emptyState =
  inr (tt, {| buf := "(a,b,t.c)"; bindings := [] |}).
Proof.
  assert (H0 : ExprText sampleDialect (col "a") "a") by apply col_text.
  assert (Hr : Forall2 (ExprText sampleDialect) [col "b"; EColumn "t" "c"] ["b"; "t.c"]).
  { constructor; [apply col_text | constructor; [| constructor]].
    intros s. unfold stringify, bind, WriteIdentifier, WriteVerbatim. cbn. now rewrite !append_assoc_str. }
  split; [exact H0 | split; [exact Hr |]].
  exact (MakeTuple_render sampleDialect (col "a") _ "a" _ emptyState H0 Hr).
Defined.
